(** * Heteroskedasticity-robust variance benchmark of [Slides_Lecture_2.ipynb]

    The notebook computes the middle term of the sandwich estimator,
    [XXe2], in several ways and times them.  This development embeds the
    cells that do so: the data generator [lpm], the benchmark cell (four
    options, [Rep] replications) and the real-data cell (options 1, 3, 4).

    Numbers.  The notebook works on float64 arrays.  Every float64 is a
    rational number, so the arrays are embedded as lists over [Qc], the
    canonical rationals, and the arithmetic is carried out exactly: what is
    proved here is the algebra of the code, without rounding.

    Arrays.  A 1-D array is a list, a 2-D array a list of rows.  An array
    without rows has no column count in this representation, so statements
    about shapes are made for arrays with at least one row.

    Rounding.  Exact arithmetic leaves out the one place where rounding
    decides what the code does rather than the last digits of a number:
    [np.linalg.inv] raises only when a pivot is exactly zero in binary64,
    and an [X.T @ X] without inverse need not give one.  The theorems on
    the benchmark cell are therefore stated so as not to depend on when
    [inv] raises; the module [binary64] runs the sandwich step on binary64
    numbers where that matters.

    Coverage.  The second half of the notebook estimates the coverage of a
    confidence interval: the function [CI], the two sequential loops, the
    comprehension over [parallel_func] and the cell that starts one process
    for each replication are embedded as well.  [CI] takes square roots, so
    its numbers are real numbers, again with exact arithmetic, extended by
    the infinities and [nan] that a division by zero produces.  The cells
    that hand the replications to a [multiprocessing.Pool] are left out:
    what their workers draw depends on how the generator state is copied
    to them. *)

From Stdlib Require Import List Arith ZArith QArith Qcanon Lia Permutation Bool Reals Lra.
From Stdlib Require PrimFloat FloatOps SpecFloat.
Import ListNotations.

Close Scope Q_scope.
Open Scope nat_scope.

(** ** Exceptions *)

(** The three exceptions the cells can meet: an index out of range, numpy's
    and scipy's shape errors, and [numpy.linalg.LinAlgError]. *)
Inductive exception : Set :=
| IndexError
| ValueError
| LinAlgError.

Inductive result (A : Type) : Type :=
| OK (a : A)
| Raise (e : exception).

Arguments OK {A} a.
Arguments Raise {A} e.

Definition bind {A B : Type} (r : result A) (k : A -> result B) : result B :=
  match r with
  | OK a => k a
  | Raise e => Raise e
  end.

Notation "x <- c ;; k" := (bind c (fun x => k))
  (at level 61, c at next level, right associativity).

(** ** The part of numpy and scipy the cells use *)

Module np.

Definition vector := list Qc.
Definition matrix := list (list Qc).

Fixpoint zipWith {A B C : Type} (f : A -> B -> C) (u : list A) (v : list B) : list C :=
  match u, v with
  | a :: u', b :: v' => f a b :: zipWith f u' v'
  | _, _ => []
  end.

Definition nrows (a : matrix) : nat := length a.
Definition ncols (a : matrix) : nat := length (hd [] a).

(** [a[i]] on a list or on the first axis of an array. *)
Definition getitem {A : Type} (a : list A) (i : nat) : result A :=
  match nth_error a i with
  | Some x => OK x
  | None => Raise IndexError
  end.

Definition zeros (r c : nat) : matrix := repeat (repeat 0%Qc c) r.
Definition ones (r c : nat) : matrix := repeat (repeat 1%Qc c) r.

(** [a ** 2], elementwise. *)
Definition square (a : vector) : vector := map (fun x => (x ^ 2)%Qc) a.

Definition sum (a : vector) : Qc := fold_right Qcplus 0%Qc a.
Definition dot (u v : vector) : Qc := sum (zipWith Qcmult u v).

Definition column (j : nat) (a : matrix) : vector := map (fun r => nth j r 0%Qc) a.

(** [a.T] *)
Definition T (a : matrix) : matrix := map (fun j => column j a) (seq 0 (ncols a)).

(** [a @ b] for two 2-D operands, and [*] between two [np.matrix]. *)
Definition matmul (a b : matrix) : result matrix :=
  if ncols a =? nrows b
  then OK (map (fun r => map (dot r) (T b)) a)
  else Raise ValueError.

(** [a @ v] for a 2-D [a] and a 1-D [v]. *)
Definition matvec (a : matrix) (v : vector) : result vector :=
  if ncols a =? length v
  then OK (map (fun r => dot r v) a)
  else Raise ValueError.

(** [c * a] for a scalar [c]. *)
Definition smul (c : Qc) (a : matrix) : matrix := map (map (Qcmult c)) a.

(** Broadcasting: two axis lengths agree when they are equal or one is 1. *)
Definition broadcast_len (m n : nat) : result nat :=
  if m =? n then OK m
  else if m =? 1 then OK n
  else if n =? 1 then OK m
  else Raise ValueError.

Definition stretch {A : Type} (n : nat) (l : list A) : list A :=
  match l with
  | [a] => repeat a n
  | _ => l
  end.

Definition broadcast1 (f : Qc -> Qc -> Qc) (u v : vector) : result vector :=
  n <- broadcast_len (length u) (length v) ;;
  OK (zipWith f (stretch n u) (stretch n v)).

Definition broadcast2 (f : Qc -> Qc -> Qc) (a b : matrix) : result matrix :=
  r <- broadcast_len (nrows a) (nrows b) ;;
  c <- broadcast_len (ncols a) (ncols b) ;;
  OK (zipWith (fun u v => zipWith f (stretch c u) (stretch c v))
              (stretch r a) (stretch r b)).

(** [u + v], [u - v] on 1-D arrays and [a * b] on 2-D arrays. *)
Definition add1 : vector -> vector -> result vector := broadcast1 Qcplus.
Definition sub1 : vector -> vector -> result vector := broadcast1 Qcminus.
Definition multiply : matrix -> matrix -> result matrix := broadcast2 Qcmult.

(** [a += b]: [b] is broadcast to the shape of [a], which does not change. *)
Definition iadd (a b : matrix) : result matrix :=
  t <- broadcast2 Qcplus a b ;;
  if (nrows t =? nrows a) && (ncols t =? ncols a) then OK t else Raise ValueError.

(** [np.outer(u, v)] *)
Definition outer (u v : vector) : matrix := map (fun x => map (Qcmult x) v) u.

(** [v.reshape((-1, 1))], [v[:, np.newaxis]] and a draw of shape [(n, 1)]. *)
Definition reshape_column (v : vector) : matrix := map (fun x => [x]) v.

(** [np.hstack((a, b))] *)
Definition hstack (a b : matrix) : result matrix :=
  if nrows a =? nrows b then OK (zipWith (@app Qc) a b) else Raise ValueError.

Definition set_nth {A : Type} (i : nat) (x : A) (l : list A) : list A :=
  firstn i l ++ match skipn i l with
                | [] => []
                | _ :: t => x :: t
                end.

(** [np.fill_diagonal(a, val)] is [a.flat[:end:step] = val]: the [i]-th
    diagonal entry receives [val[i mod len(val)]] (the values are recycled,
    surplus values are dropped), and nothing is written when [val] is
    empty. *)
Definition fill_diagonal (a : matrix) (val : vector) : matrix :=
  match val with
  | [] => a
  | v0 :: _ =>
      map (fun ir => set_nth (fst ir) (nth (fst ir mod length val) val v0) (snd ir))
          (combine (seq 0 (length a)) a)
  end.

(** [scipy.sparse.diags(d, format='csr')]: the square matrix of order
    [len(d)] of which only the diagonal is stored. *)
Record sparse : Type := diags { diagonal : vector }.

(** [a @ s] for a dense [a] and a sparse diagonal [s]: only the stored
    entries take part, column [j] of [a] is scaled by [s[j, j]]. *)
Definition rmatmul (a : matrix) (s : sparse) : result matrix :=
  if ncols a =? length (diagonal s)
  then OK (map (fun r => zipWith Qcmult r (diagonal s)) a)
  else Raise ValueError.

(** Determinant by expansion along the first row. *)
Definition del_nth {A : Type} (j : nat) (l : list A) : list A :=
  firstn j l ++ skipn (S j) l.

Definition sign (k : nat) : Qc := if Nat.even k then 1%Qc else Qcopp 1%Qc.

Fixpoint det_rec (k : nat) (a : matrix) : Qc :=
  match k, a with
  | S k', r :: rest =>
      sum (map (fun j => (sign j * nth j r 0 * det_rec k' (map (del_nth j) rest))%Qc)
               (seq 0 (length r)))
  | _, _ => 1%Qc
  end.

Definition det (a : matrix) : Qc := det_rec (nrows a) a.

Definition Qc_eqb (x y : Qc) : bool := Qeq_bool x y.

Definition is_square (a : matrix) : bool :=
  forallb (fun r => length r =? nrows a) a.

(** [np.linalg.inv(a)] in exact arithmetic: the inverse of a square matrix
    by cofactors; [LinAlgError] when [a] is not square or is singular.  In
    exact arithmetic a pivot of the LU factorisation is zero exactly when
    the determinant is; [binary64.inv] below is the routine on rounded
    numbers. *)
Definition inv (a : matrix) : result matrix :=
  if is_square a then
    let d := det a in
    if Qc_eqb d 0 then Raise LinAlgError
    else OK (map (fun i =>
                    map (fun j => (sign (i + j) * det (del_nth j (map (del_nth i) a)) / d)%Qc)
                        (seq 0 (nrows a)))
                 (seq 0 (nrows a)))
  else Raise LinAlgError.

(** The global random state is the stream of standard normal draws still to
    come; [np.random.normal(size=n)] takes the next [n] of them. *)
Definition RandomState := nat -> Qc.

Definition normal (size : nat) (g : RandomState) : vector * RandomState :=
  (map g (seq 0 size), fun k => g (size + k)).

End np.

Import np.

(** ** The data generator *)

(** [lpm(n)]: draws the errors and the covariate, fits the linear
    probability model by OLS and returns the design matrix and the
    residuals.  The random state is threaded through explicitly. *)
Definition lpm (n : nat) (g : RandomState) : result (matrix * vector * RandomState) :=
  let b0 := [Qcopp 1; 1%Qc] in
  let (e, g) := normal n g in
  let (x, g) := normal n g in
  X <- hstack (ones n 1) (reshape_column x) ;;
  Xb0 <- matvec X b0 ;;
  Ystar <- add1 Xb0 e ;;
  let Y := map (fun v : Qc => if Qle_bool 0 v then 1%Qc else 0%Qc) Ystar in
  XtX <- matmul (T X) X ;;
  XX_inv <- inv XtX ;;
  XX_inv_Xt <- matmul XX_inv (T X) ;;
  bhat <- matvec XX_inv_Xt Y ;;
  bhat2 <- getitem bhat 1 ;;
  Xbhat <- matvec X bhat ;;
  e_hat <- sub1 Y Xbhat ;;
  OK (X, e_hat, g).

(** ** The benchmark cell *)

(** Option 1, [for i in range(n): XXe2 += e_hat[i]**2 * np.matrix(X[i,]).T @ np.matrix(X[i,])].
    [*] and [@] associate to the left. *)
Fixpoint accumulate (X : matrix) (e_hat : vector) (range : list nat) (XXe2 : matrix)
  : result matrix :=
  match range with
  | [] => OK XXe2
  | i :: range' =>
      ei <- getitem e_hat i ;;
      xi <- getitem X i ;;
      t <- matmul (smul (ei ^ 2) (T [xi])) [xi] ;;
      XXe2 <- iadd XXe2 t ;;
      accumulate X e_hat range' XXe2
  end.

(** The [if opt == 1: ... elif opt == 4: ...] chain of the benchmark cell.
    [XXe2] is the value the variable holds when the chain is entered. *)
Definition computeMiddle (n opt : nat) (XXe2 : matrix) (X : matrix) (e_hat : vector)
  : result matrix :=
  match opt with
  | 1 => accumulate X e_hat (seq 0 n) XXe2
  | 2 =>
      let e_hat2_M := zeros n n in
      let e_hat2_M := fill_diagonal e_hat2_M (square e_hat) in
      XtD <- matmul (T X) e_hat2_M ;;
      matmul XtD X
  | 3 =>
      let e_hat2_M := diags (square e_hat) in
      XtD <- rmatmul (T X) e_hat2_M ;;
      matmul XtD X
  | 4 =>
      let e_hat := reshape_column e_hat in
      Xe <- matmul (T X) e_hat ;;
      matmul Xe (T Xe)
  | _ => OK XXe2
  end.

(** [XX_inv = np.linalg.inv(X.T @ X); sig_B = XX_inv @ XXe2 @ XX_inv] *)
Definition sandwich (X XXe2 : matrix) : result matrix :=
  XtX <- matmul (T X) X ;;
  XX_inv <- inv XtX ;;
  t <- matmul XX_inv XXe2 ;;
  matmul t XX_inv.

Definition computeSandwich (n opt : nat) (XXe2 : matrix) (X : matrix) (e_hat : vector)
  : result matrix :=
  XXe2 <- computeMiddle n opt XXe2 X e_hat ;;
  sandwich X XXe2.

(** What one pass through the body of the replication loop leaves behind:
    the random state and [XXe2], which the next pass finds, and the values
    of [data] and [sig_B]. *)
Record replication : Type := {
  rep_random_state : RandomState;
  rep_XXe2 : matrix;
  rep_data : matrix * vector;
  rep_sig_B : matrix
}.

Section Benchmark.

(** [np.random.seed(s)] installs the stream of draws that belongs to [s]. *)
Variable seed : nat -> RandomState.

(** The data of replication [iter]: [np.random.seed(iter); data = lpm(n)]. *)
Definition draw (n iter : nat) (g : RandomState) : result (matrix * vector * RandomState) :=
  let g := seed iter in
  lpm n g.

(** The body of [for iter in range(Rep)]. *)
Definition body (n opt : nat) (g : RandomState) (XXe2 : matrix) (iter : nat)
  : result replication :=
  d <- draw n iter g ;;
  let '(X, e_hat, g) := d in
  XXe2 <- computeMiddle n opt XXe2 X e_hat ;;
  sig_B <- sandwich X XXe2 ;;
  OK {| rep_random_state := g; rep_XXe2 := XXe2; rep_data := (X, e_hat); rep_sig_B := sig_B |}.

(** The replication loop; the passes are reported first to last. *)
Fixpoint replications (n opt : nat) (g : RandomState) (XXe2 : matrix) (range : list nat)
  : result (list replication) :=
  match range with
  | [] => OK []
  | iter :: range' =>
      r <- body n opt g XXe2 iter ;;
      rs <- replications n opt (rep_random_state r) (rep_XXe2 r) range' ;;
      OK (r :: rs)
  end.

(** One pass of [for opt in range(1, 5)]: [XXe2 = np.zeros((2, 2))], then
    the replication loop. *)
Definition benchmark (n Rep opt : nat) (g : RandomState) : result (list replication) :=
  let XXe2 := zeros 2 2 in
  replications n opt g XXe2 (seq 0 Rep).

(** The random state a pass of the replication loop leaves to the next
    option. *)
Definition last_random_state (g : RandomState) (rs : list replication) : RandomState :=
  rep_random_state (last rs {| rep_random_state := g; rep_XXe2 := [];
                               rep_data := ([], []); rep_sig_B := [] |}).

(** The whole cell, [for opt in range(1, 5)]. *)
Fixpoint options (n Rep : nat) (g : RandomState) (range : list nat)
  : result (list (list replication)) :=
  match range with
  | [] => OK []
  | opt :: range' =>
      rs <- benchmark n Rep opt g ;;
      rss <- options n Rep (last_random_state g rs) range' ;;
      OK (rs :: rss)
  end.

End Benchmark.

(** ** The sandwich step in binary64 *)

(** Whether [np.linalg.inv] raises is decided by the rounded numbers:
    LAPACK reports a singular matrix only when a pivot of its LU
    factorisation is exactly zero.  This module runs option 1 and the
    sandwich step of the benchmark cell on binary64 numbers, for the shapes
    the cell has: [X] with two columns, [XXe2] and [X.T @ X] 2 by 2. *)
Module binary64.

Import PrimFloat.
Local Open Scope float_scope.

(** The array [[a11, a12], [a21, a22]]. *)
Record array22 : Set := Array22 { a11 : float; a12 : float; a21 : float; a22 : float }.

(** The inner product, accumulated from the left. *)
Definition dot (u v : list float) : float := fold_left add (zipWith mul u v) 0.

(** [X.T @ X] for [X] with the rows [(x0, x1)]. *)
Definition gram (X : list (float * float)) : array22 :=
  let c0 := map fst X in
  let c1 := map snd X in
  Array22 (dot c0 c0) (dot c0 c1) (dot c1 c0) (dot c1 c1).

(** [a @ b] *)
Definition matmul (a b : array22) : array22 :=
  Array22 (a11 a * a11 b + a12 a * a21 b) (a11 a * a12 b + a12 a * a22 b)
          (a21 a * a11 b + a22 a * a21 b) (a21 a * a12 b + a22 a * a22 b).

(** The smallest positive normal number, LAPACK's safe minimum. *)
Definition sfmin : float := 0x1p-1022.

(** [np.linalg.inv(a)] is LAPACK's [gesv] on [a] and the identity: the LU
    factorisation with partial pivoting ([getrf]: the row with the larger
    first entry comes first, the multiplier is the other first entry times
    the reciprocal of the pivot), then the two triangular solves for each
    column of the identity.  [LinAlgError] is raised exactly when a pivot
    is exactly zero. *)
Definition inv (a : array22) : result array22 :=
  let swap := abs (a11 a) <? abs (a21 a) in
  let u11 := if swap then a21 a else a11 a in
  let u12 := if swap then a22 a else a12 a in
  let r21 := if swap then a11 a else a21 a in
  let r22 := if swap then a12 a else a22 a in
  if u11 =? 0 then Raise LinAlgError
  else
    let l := if sfmin <=? abs u11 then r21 * (1 / u11) else r21 / u11 in
    let u22 := r22 - l * u12 in
    if u22 =? 0 then Raise LinAlgError
    else
      let solve (b1 b2 : float) : float * float :=
        let y2 := b2 - l * b1 in
        let x2 := y2 / u22 in
        ((b1 - u12 * x2) / u11, x2) in
      let c1 := if swap then solve 0 1 else solve 1 0 in
      let c2 := if swap then solve 1 0 else solve 0 1 in
      OK (Array22 (fst c1) (fst c2) (snd c1) (snd c2)).

(** Option 1,
    [for i in range(n): XXe2 += e_hat[i]**2 * np.matrix(X[i,]).T @ np.matrix(X[i,])]. *)
Fixpoint accumulate (X : list (float * float)) (e_hat : list float) (range : list nat)
         (XXe2 : array22) : result array22 :=
  match range with
  | [] => OK XXe2
  | i :: range' =>
      ei <- getitem e_hat i ;;
      xi <- getitem X i ;;
      let w := ei * ei in
      let XXe2 :=
        Array22 (a11 XXe2 + w * fst xi * fst xi) (a12 XXe2 + w * fst xi * snd xi)
                (a21 XXe2 + w * snd xi * fst xi) (a22 XXe2 + w * snd xi * snd xi) in
      accumulate X e_hat range' XXe2
  end.

(** [XX_inv = np.linalg.inv(X.T @ X); sig_B = XX_inv @ XXe2 @ XX_inv] *)
Definition sandwich (X : list (float * float)) (XXe2 : array22) : result array22 :=
  XX_inv <- inv (gram X) ;;
  OK (matmul (matmul XX_inv XXe2) XX_inv).

(** One replication under option 1, from [XXe2] holding zeros. *)
Definition computeSandwich (n : nat) (X : list (float * float)) (e_hat : list float)
  : result array22 :=
  XXe2 <- accumulate X e_hat (seq 0 n) (Array22 0 0 0 0) ;;
  sandwich X XXe2.

(** The rational number a finite binary64 number is, and an array with two
    columns in exact arithmetic. *)
Definition exact (x : float) : Q :=
  match FloatOps.Prim2SF x with
  | SpecFloat.S754_finite s m e =>
      ((if s then -1 else 1) * inject_Z (Z.pos m) * 2 ^ e)%Q
  | _ => 0%Q
  end.

Definition rationals (X : list (float * float)) : matrix :=
  map (fun r => [Q2Qc (exact (fst r)); Q2Qc (exact (snd r))]) X.

(** Three observations with the same covariate, the binary64 number next
    to 0.7, and their residuals. *)
Definition X_07 : list (float * float) :=
  [(1, 0x1.6666666666666p-1); (1, 0x1.6666666666666p-1); (1, 0x1.6666666666666p-1)].

Definition e_121 : list float := [1; -2; 1].

(** Two identical columns, a column of zeros, and the one observation
    [(1, 1/2)]. *)
Definition X_identical : list (float * float) := [(1, 1); (1, 1); (1, 1)].

Definition X_zero_column : list (float * float) := [(1, 0); (1, 0); (1, 0)].

Definition X_half : list (float * float) := [(1, 0.5)].

End binary64.

(** ** The real-data cell *)

(** Option 1 of the real-data cell,
    [for i in range(n): XXe2 += e_hat[i]**2 * np.outer(X[i, :], X[i, :])]. *)
Fixpoint accumulate_outer (X : matrix) (e_hat : vector) (range : list nat) (XXe2 : matrix)
  : result matrix :=
  match range with
  | [] => OK XXe2
  | i :: range' =>
      ei <- getitem e_hat i ;;
      xi <- getitem X i ;;
      XXe2 <- iadd XXe2 (smul (ei ^ 2) (outer xi xi)) ;;
      accumulate_outer X e_hat range' XXe2
  end.

(** The body of [for opt in options] of the real-data cell; [n] and [K] are
    the globals the cell reads. *)
Definition computeMiddle_realdata (n K opt : nat) (X : matrix) (e_hat : vector)
  : result matrix :=
  let XXe2 := zeros K K in
  match opt with
  | 1 => accumulate_outer X e_hat (seq 0 n) XXe2
  | 3 =>
      let e_hat2_M := diags (square e_hat) in
      XtD <- rmatmul (T X) e_hat2_M ;;
      matmul XtD X
  | 4 =>
      Xe <- multiply X (reshape_column e_hat) ;;
      matmul (T Xe) Xe
  | _ => OK XXe2
  end.

(** ** Confidence intervals and their coverage *)

(** The values of a [float64]: a number, an infinity or [nan].  Numbers are
    real numbers and their arithmetic is exact; infinities and [nan] arise
    from divisions by zero and propagate as in IEEE 754 (zero is [+0.0]). *)
Module f64.

Inductive float64 : Type :=
| Num (r : R)
| Inf (negative : bool)
| NaN.

Definition signbit (x : R) : bool := if Rlt_dec x 0 then true else false.

Definition add (a b : float64) : float64 :=
  match a, b with
  | Num x, Num y => Num (x + y)
  | Num _, Inf s => Inf s
  | Inf s, Num _ => Inf s
  | Inf s, Inf t => if Bool.eqb s t then Inf s else NaN
  | _, _ => NaN
  end.

Definition opp (a : float64) : float64 :=
  match a with
  | Num x => Num (- x)
  | Inf s => Inf (negb s)
  | NaN => NaN
  end.

Definition sub (a b : float64) : float64 := add a (opp b).

Definition mul (a b : float64) : float64 :=
  match a, b with
  | Num x, Num y => Num (x * y)
  | Num x, Inf s => if Req_dec_T x 0 then NaN else Inf (xorb (signbit x) s)
  | Inf s, Num y => if Req_dec_T y 0 then NaN else Inf (xorb s (signbit y))
  | Inf s, Inf t => Inf (xorb s t)
  | _, _ => NaN
  end.

Definition div (a b : float64) : float64 :=
  match a, b with
  | Num x, Num y =>
      if Req_dec_T y 0
      then if Req_dec_T x 0 then NaN else Inf (signbit x)
      else Num (x / y)
  | Num _, Inf _ => Num 0
  | Inf s, Num y => Inf (xorb s (signbit y))
  | _, _ => NaN
  end.

Definition sqrt (a : float64) : float64 :=
  match a with
  | Num x => if Rlt_dec x 0 then NaN else Num (R_sqrt.sqrt x)
  | Inf false => Inf false
  | _ => NaN
  end.

(** [a <= b], which is [False] as soon as one side is [nan]. *)
Definition le (a b : float64) : bool :=
  match a, b with
  | Num x, Num y => if Rle_dec x y then true else false
  | Num _, Inf t => negb t
  | Inf s, Num _ => s
  | Inf s, Inf t => s || negb t
  | _, _ => false
  end.

End f64.

(** [np.mean(x)]: the sum over the number of elements, [nan] (0.0 / 0) on
    an empty array. *)
Definition mean (x : list R) : f64.float64 :=
  f64.div (f64.Num (fold_right Rplus 0%R x)) (f64.Num (INR (length x))).

(** [np.std(x)] is [sqrt(mean(abs(x - x.mean())**2))]; on an empty array
    [x - x.mean()] is empty. *)
Definition std (x : list R) : f64.float64 :=
  match mean x with
  | f64.Num m => f64.sqrt (mean (map (fun v => (Rabs (v - m) ^ 2)%R) x))
  | _ => f64.sqrt (mean [])
  end.

(** The dictionary [{"lower": lower, "upper": upper}]. *)
Record bounds : Type := { lower : f64.float64; upper : f64.float64 }.

(** [CI(x)] on real numbers: the bounds are the exact ones, which the
    binary64 code approximates to the last digits. *)
Definition CI (x : list R) : bounds :=
  let n := length x in
  let mu := mean x in
  let sig := std x in
  let upper :=
    f64.add mu (f64.mul (f64.div (f64.Num (196 / 100)) (f64.sqrt (f64.Num (INR n)))) sig) in
  let lower :=
    f64.sub mu (f64.mul (f64.div (f64.Num (196 / 100)) (f64.sqrt (f64.Num (INR n)))) sig) in
  {| lower := lower; upper := upper |}.

(** [(bounds["lower"] <= mu) & (mu <= bounds["upper"])] *)
Definition covers (b : bounds) (mu : R) : bool :=
  f64.le (lower b) (f64.Num mu) && f64.le (f64.Num mu) (upper b).

(** [a[i] = x] on an array of fixed length. *)
Definition setitem {A : Type} (a : list A) (i : nat) (x : A) : result (list A) :=
  if i <? length a then OK (np.set_nth i x a) else Raise IndexError.

(** [d[k] = v] on a dictionary, kept in insertion order: an existing key
    keeps its place. *)
Fixpoint dict_set {V : Type} (d : list (nat * V)) (k : nat) (v : V) : list (nat * V) :=
  match d with
  | [] => [(k, v)]
  | (k', v') :: d' => if k' =? k then (k, v) :: d' else (k', v') :: dict_set d' k v
  end.

Fixpoint dict_get {V : Type} (d : list (nat * V)) (k : nat) : option V :=
  match d with
  | [] => None
  | (k', v') :: d' => if k' =? k then Some v' else dict_get d' k
  end.

(** [True] counts as 1.0 and [False] as 0.0 in [np.mean]. *)
Definition of_bool (b : bool) : R := if b then 1%R else 0%R.

Section Coverage.

(** The generator: its states, [np.random.seed(s)] and
    [np.random.poisson(lam, size)], which returns [size] draws and the state
    it leaves. *)
Variable state : Type.
Variable seed : nat -> state.
Variable poisson : Z -> nat -> state -> list Z * state.

(** The body the coverage loops share: draw a sample, compute the interval,
    test whether it covers [mu]. *)
Definition parallel_func (mu : Z) (sample_size : nat) (i : nat) (g : state) : bool * state :=
  let (x, g) := poisson mu sample_size g in
  let bounds := CI (map IZR x) in
  (covers bounds (IZR mu), g).

(** [for i in range(Rep): ...; out.append(...)] *)
Fixpoint loop_append (mu : Z) (sample_size : nat) (range : list nat) (g : state)
         (out : list bool) : list bool * state :=
  match range with
  | [] => (out, g)
  | i :: range' =>
      let (x, g) := poisson mu sample_size g in
      let bounds := CI (map IZR x) in
      loop_append mu sample_size range' g (out ++ [covers bounds (IZR mu)])
  end.

Definition coverage_append (Rep sample_size : nat) (mu : Z) : list bool * state :=
  let g := seed 1 in
  let out := [] in
  loop_append mu sample_size (seq 0 Rep) g out.

(** [for i in range(Rep): ...; out[i] = ...] *)
Fixpoint loop_assign (mu : Z) (sample_size : nat) (range : list nat) (g : state)
         (out : list bool) : result (list bool * state) :=
  match range with
  | [] => OK (out, g)
  | i :: range' =>
      let (x, g) := poisson mu sample_size g in
      let bounds := CI (map IZR x) in
      out <- setitem out i (covers bounds (IZR mu)) ;;
      loop_assign mu sample_size range' g out
  end.

Definition coverage_assign (Rep sample_size : nat) (mu : Z) : result (list bool * state) :=
  let g := seed 1 in
  let out := repeat false Rep in
  loop_assign mu sample_size (seq 0 Rep) g out.

(** [out = [parallel_func(i) for i in range(Rep)]] *)
Fixpoint comprehension (mu : Z) (sample_size : nat) (range : list nat) (g : state)
  : list bool * state :=
  match range with
  | [] => ([], g)
  | i :: range' =>
      let (b, g) := parallel_func mu sample_size i g in
      let (out, g) := comprehension mu sample_size range' g in
      (b :: out, g)
  end.

(** The process [Process(target=capture, args=(i, return_dict))]: it seeds
    its own generator and writes its result under the key [i]. *)
Definition capture (mu : Z) (sample_size : nat) (i : nat) (return_dict : list (nat * bool))
  : list (nat * bool) :=
  let g := seed i in
  let (x, _) := poisson mu sample_size g in
  let bounds := CI (map IZR x) in
  let result := covers bounds (IZR mu) in
  dict_set return_dict i result.

(** What process [i] writes: the indicator [parallel_func] computes from the
    state [np.random.seed(i)] installs. *)
Definition process_result (mu : Z) (sample_size : nat) (i : nat) : bool :=
  fst (parallel_func mu sample_size i (seed i)).

(** The dictionary after all processes have been joined, when they wrote
    their results in the order [schedule]. *)
Definition joined (mu : Z) (sample_size : nat) (schedule : list nat) : list (nat * bool) :=
  fold_left (fun return_dict i => capture mu sample_size i return_dict) schedule [].

(** [stat_cover = np.mean(return_dict.values())] *)
Definition stat_cover (return_dict : list (nat * bool)) : f64.float64 :=
  mean (map of_bool (map snd return_dict)).

End Coverage.

(** ** The vocabulary of the statements *)

(** [a[i, j]], and the array with [r] rows and [c] columns that has [f i j]
    at [[i, j]]. *)
Definition entry (a : matrix) (i j : nat) : Qc := nth j (nth i a []) 0%Qc.

Definition tabulate (r c : nat) (f : nat -> nat -> Qc) : matrix :=
  map (fun i => map (f i) (seq 0 c)) (seq 0 r).

(** [a] has [r] rows, all of length [c]: the shape [(r, c)]. *)
Definition is_matrix (r c : nat) (a : matrix) : Prop :=
  length a = r /\ Forall (fun row => length row = c) a.

(** The sum of [f 0 .. f (n - 1)]. *)
Definition sum_n (n : nat) (f : nat -> Qc) : Qc := sum (map f (seq 0 n)).

(** The value [np.fill_diagonal] writes at diagonal position [i]. *)
Definition recycled (val : vector) (i : nat) : Qc :=
  match val with
  | [] => 0%Qc
  | v0 :: _ => nth (i mod length val) val v0
  end.

(** The table with entries [sum_i w i * X[i, a] * X[i, b]]: the matrix
    [sum_i w i * outer(x_i, x_i)], that is [X' diag(w) X]. *)
Definition weighted (n K : nat) (w : nat -> Qc) (X : matrix) : matrix :=
  tabulate K K (fun a b => sum_n n (fun i => (w i * (entry X i a * entry X i b))%Qc)).

(** The table with entries [(sum_i X[i, a] * e[i]) * (sum_i X[i, b] * e[i])]:
    the matrix [(X' e) (X' e)']. *)
Definition score_outer (n K : nat) (e_hat : vector) (X : matrix) : matrix :=
  tabulate K K (fun a b =>
    (sum_n n (fun i => entry X i a * nth i e_hat 0) *
     sum_n n (fun i => entry X i b * nth i e_hat 0))%Qc).

(** [e_hat[i]**2] *)
Definition squared (e_hat : vector) (i : nat) : Qc := (nth i e_hat 0 ^ 2)%Qc.

(** The inputs the specification calls valid, as far as shapes go: [n]
    observations of [K] covariates and one residual for each. *)
Definition valid (n K : nat) (X : matrix) (residuals : vector) : Prop :=
  (0 < n)%nat /\ (0 < K)%nat /\ is_matrix n K X /\ length residuals = n.

(** The identity matrix of order [K]. *)
Definition identity (K : nat) : matrix :=
  tabulate K K (fun i j => if i =? j then 1%Qc else 0%Qc).

(** [sum_i residual_i^2 * outer(x_i, x_i)], observation by observation. *)
Fixpoint outer_sum (K : nat) (X : matrix) (residuals : vector) : matrix :=
  match X, residuals with
  | x :: X', r :: residuals' =>
      zipWith (zipWith Qcplus) (smul (r ^ 2) (outer x x)) (outer_sum K X' residuals')
  | _, _ => zeros K K
  end.

(** The number of observations as a rational. *)
Definition Qc_of_nat (n : nat) : Qc := Q2Qc (inject_Z (Z.of_nat n)).

(** The specification's SandwichMiddle,
    [(1/n) * sum_i residual_i^2 * outer(x_i, x_i)]. *)
Definition SandwichMiddle (K : nat) (X : matrix) (residuals : vector) : matrix :=
  smul (1 / Qc_of_nat (nrows X)) (outer_sum K X residuals).

(** The results of [f] along a list, up to the first exception. *)
Fixpoint traverse {A B : Type} (f : A -> result B) (l : list A) : result (list B) :=
  match l with
  | [] => OK []
  | a :: l' =>
      b <- f a ;;
      bs <- traverse f l' ;;
      OK (b :: bs)
  end.

(** What [np.random.seed(iter); data = lpm(n)] binds [data] to. *)
Definition generated (seed : nat -> RandomState) (n iter : nat) : result (matrix * vector) :=
  d <- lpm n (seed iter) ;;
  OK (fst d).

(** The covariate [lpm] draws (the second draw of [n] values) and the design
    matrix it builds from it. *)
Definition covariate (n : nat) (g : RandomState) : vector :=
  fst (normal n (snd (normal n g))).

Definition design (n : nat) (g : RandomState) : matrix :=
  map (fun v => [1%Qc; v]) (covariate n g).

(** The matrices [A + S_1], [A + S_1 + S_2], ... for the sums [S_k] of the
    weighted outer products of the data sets [ds]. *)
Fixpoint running_sums (A : matrix) (ds : list (matrix * vector)) : list matrix :=
  match ds with
  | [] => []
  | d :: ds' =>
      let A' := zipWith (zipWith Qcplus) A (outer_sum 2 (fst d) (snd d)) in
      A' :: running_sums A' ds'
  end.

(** [u @ M @ u] *)
Definition quadratic_form (M : matrix) (u : vector) : Qc :=
  dot u (map (fun row => dot row u) M).

(** The variance [np.std] takes the root of. *)
Definition variance (x : list R) : R :=
  (fold_right Rplus 0
     (map (fun v => Rabs (v - fold_right Rplus 0 x / INR (length x)) ^ 2) x)
   / INR (length x))%R.

(** ** Concrete arrays, random states and runs *)

(** Arrays given by the fractions in them. *)
Definition mat (a : list (list Q)) : matrix := map (map Q2Qc) a.
Definition vec (a : list Q) : vector := map Q2Qc a.

(** The numerators and denominators of the entries of an array. *)
Definition numbers (a : matrix) : list (list Q) := map (map this) a.

Definition observe (r : result matrix) : result (list (list Q)) :=
  match r with
  | OK a => OK (numbers a)
  | Raise ex => Raise ex
  end.

(** The matrices [XXe2] and the data of the passes of a run. *)
Definition middles (r : result (list replication)) : result (list (list (list Q))) :=
  match r with
  | OK rs => OK (map (fun p => numbers (rep_XXe2 p)) rs)
  | Raise ex => Raise ex
  end.

Definition inputs (r : result (list replication))
  : result (list (list (list Q) * list Q)) :=
  match r with
  | OK rs => OK (map (fun p => (numbers (fst (rep_data p)), map this (snd (rep_data p)))) rs)
  | Raise ex => Raise ex
  end.

(** A random state that replays a finite tape of draws, then zeros. *)
Definition tape (l : list Q) : RandomState := fun k => Q2Qc (nth k l 0%Q).

(** Three observations of an intercept and a covariate, and residuals. *)
Definition X3 : matrix := mat [[1; 0]; [1; 1]; [1; 2]]%Q.
Definition e3 : vector := vec [1; -2; 1]%Q.

(** [X3] and [e3] with the first two observations exchanged. *)
Definition X3_swapped : matrix := mat [[1; 1]; [1; 0]; [1; 2]]%Q.
Definition e3_swapped : vector := vec [-2; 1; 1]%Q.

(** Three observations with two identical columns. *)
Definition X3_collinear : matrix := mat [[1; 1]; [1; 1]; [1; 1]]%Q.

(** Five observations, with four and with six residuals. *)
Definition X5 : matrix := mat [[1; 0]; [1; 1]; [1; 2]; [1; 3]; [1; 4]]%Q.
Definition e4 : vector := vec [1; 2; 1; 2]%Q.
Definition e6 : vector := vec [1; 1; 1; 1; 1; 7]%Q.

(** A seeding with two distinct streams: under seed 0 the errors are
    [1, -1, 0], under any other seed [0, 1, 1]; the covariate is
    [0, 1, 2] under both. *)
Definition two_streams (s : nat) : RandomState :=
  match s with
  | O => tape [1; -1; 0; 0; 1; 2]%Q
  | _ => tape [0; 1; 1; 0; 1; 2]%Q
  end.

(** The residuals [lpm(3)] returns under the two streams of [two_streams],
    and the middle term of the first. *)
Definition e_hat_0 : vector := vec [1 # 3; -2 # 3; 1 # 3]%Q.
Definition e_hat_1 : vector := vec [-1 # 6; 1 # 3; -1 # 6]%Q.
Definition XXe2_0 : matrix := mat [[2 # 3; 2 # 3]; [2 # 3; 8 # 9]]%Q.

(** Two runs of two replications: option 1 from an empty tape, option 4
    from another random state. *)
Definition run_option_1 : list replication :=
  match benchmark two_streams 3 2 1 (tape []) with
  | OK rs => rs
  | Raise _ => []
  end.

Definition run_option_4 : list replication :=
  match benchmark two_streams 3 2 4 (tape [5; 7]%Q) with
  | OK rs => rs
  | Raise _ => []
  end.

(** * Proofs *)

(** ** Arrays as tables of their entries *)

Section Tables.

Local Open Scope Qc_scope.

Lemma Qc_eqb_eq (x y : Qc) : Qc_eqb x y = true <-> x = y.
Proof.
  unfold Qc_eqb. rewrite Qeq_bool_iff. split.
  - apply Qc_is_canon.
  - intros ->. reflexivity.
Qed.

Lemma Qc_sq (x : Qc) : x ^ 2 = x * x.
Proof. simpl. ring. Qed.

Lemma nth_map_seq {A : Type} (f : nat -> A) (n i : nat) (d : A) :
  (i < n)%nat -> nth i (map f (seq 0 n)) d = f i.
Proof.
  intros Hi.
  rewrite (nth_indep _ d (f 0%nat)) by (rewrite length_map, length_seq; exact Hi).
  rewrite map_nth, seq_nth by exact Hi. reflexivity.
Qed.

Lemma map_seq_nth {A : Type} (l : list A) (d : A) :
  map (fun i => nth i l d) (seq 0 (length l)) = l.
Proof.
  apply (nth_ext _ _ d d).
  - rewrite length_map, length_seq. reflexivity.
  - intros i Hi. rewrite length_map, length_seq in Hi.
    now rewrite (nth_map_seq (fun k => nth k l d)).
Qed.

Lemma map_seq_ext {A : Type} (f g : nat -> A) (n : nat) :
  (forall i, (i < n)%nat -> f i = g i) -> map f (seq 0 n) = map g (seq 0 n).
Proof.
  intros H. apply map_ext_in. intros i Hi. apply in_seq in Hi. apply H. lia.
Qed.

Lemma zipWith_map_seq {A B C : Type} (h : A -> B -> C) (f : nat -> A) (g : nat -> B)
      (l : list nat) :
  zipWith h (map f l) (map g l) = map (fun i => h (f i) (g i)) l.
Proof. induction l as [|i l IH]; simpl; [reflexivity | now rewrite IH]. Qed.

Lemma length_zipWith {A B C : Type} (h : A -> B -> C) (u : list A) (v : list B) :
  length (zipWith h u v) = Nat.min (length u) (length v).
Proof.
  revert v. induction u as [|a u IH]; intros [|b v]; simpl; try reflexivity.
  now rewrite IH.
Qed.

(** *** Finite sums *)

Lemma sum_n_ext (n : nat) (f g : nat -> Qc) :
  (forall i, (i < n)%nat -> f i = g i) -> sum_n n f = sum_n n g.
Proof. intros H. unfold sum_n. now rewrite (map_seq_ext f g n H). Qed.

Lemma sum_app (u v : vector) : sum (u ++ v) = sum u + sum v.
Proof. induction u as [|a u IH]; simpl; [ring | rewrite IH; ring]. Qed.

Lemma sum_n_S (n : nat) (f : nat -> Qc) : sum_n (S n) f = sum_n n f + f n.
Proof.
  unfold sum_n. rewrite seq_S, map_app, sum_app. simpl. ring.
Qed.

Lemma sum_n_1 (f : nat -> Qc) : sum_n 1 f = f 0%nat.
Proof. unfold sum_n. simpl. ring. Qed.

Lemma sum_n_0 (n : nat) : sum_n n (fun _ => 0) = 0.
Proof. induction n as [|n IH]; [reflexivity | rewrite sum_n_S, IH; ring]. Qed.

Lemma sum_n_plus (n : nat) (f g : nat -> Qc) :
  sum_n n (fun i => f i + g i) = sum_n n f + sum_n n g.
Proof.
  induction n as [|n IH]; [unfold sum_n; simpl; ring |].
  rewrite !sum_n_S, IH. ring.
Qed.

Lemma sum_n_scal (n : nat) (c : Qc) (f : nat -> Qc) :
  sum_n n (fun i => c * f i) = c * sum_n n f.
Proof.
  induction n as [|n IH]; [unfold sum_n; simpl; ring |].
  rewrite !sum_n_S, IH. ring.
Qed.

(** A sum against an indicator keeps one term. *)
Lemma sum_n_delta (n j : nat) (f c : nat -> Qc) :
  (j < n)%nat ->
  sum_n n (fun k => f k * (if k =? j then c k else 0)) = f j * c j.
Proof.
  induction n as [|n IH]; intros Hj; [lia |].
  rewrite sum_n_S. destruct (Nat.eq_dec j n) as [->|Hne].
  - rewrite Nat.eqb_refl.
    rewrite (sum_n_ext n _ (fun _ => 0)).
    + rewrite sum_n_0. ring.
    + intros i Hi. destruct (Nat.eqb_spec i n); [lia | ring].
  - rewrite IH by lia. destruct (Nat.eqb_spec n j); [lia | ring].
Qed.

Lemma dot_map_seq (f g : nat -> Qc) (n : nat) :
  dot (map f (seq 0 n)) (map g (seq 0 n)) = sum_n n (fun k => f k * g k).
Proof. unfold dot, sum_n. now rewrite zipWith_map_seq. Qed.

(** The sum over the positions of two lists is a sum over their pairs. *)
Lemma sum_n_combine {A B : Type} (F : A -> B -> Qc) (u : list A) (v : list B)
      (da : A) (db : B) :
  length u = length v ->
  sum_n (length u) (fun i => F (nth i u da) (nth i v db))
  = sum (map (fun p => F (fst p) (snd p)) (combine u v)).
Proof.
  revert v. induction u as [|a u IH]; intros [|b v] Hlen; simpl in Hlen; try discriminate.
  - reflexivity.
  - unfold sum_n. simpl. rewrite <- seq_shift, map_map.
    f_equal. apply IH. lia.
Qed.

Lemma sum_map_Permutation {A : Type} (F : A -> Qc) (l l' : list A) :
  Permutation l l' -> sum (map F l) = sum (map F l').
Proof.
  induction 1; simpl.
  - reflexivity.
  - now rewrite IHPermutation.
  - ring.
  - congruence.
Qed.

(** *** Tables *)

Lemma is_matrix_tabulate (r c : nat) (f : nat -> nat -> Qc) :
  is_matrix r c (tabulate r c f).
Proof.
  split.
  - unfold tabulate. now rewrite length_map, length_seq.
  - unfold tabulate. apply Forall_forall. intros row Hrow.
    apply in_map_iff in Hrow. destruct Hrow as (i & <- & _).
    now rewrite length_map, length_seq.
Qed.

Lemma entry_tabulate (r c : nat) (f : nat -> nat -> Qc) (i j : nat) :
  (i < r)%nat -> (j < c)%nat -> entry (tabulate r c f) i j = f i j.
Proof.
  intros Hi Hj. unfold entry, tabulate.
  rewrite (nth_map_seq _ r i []) by exact Hi.
  now apply nth_map_seq.
Qed.

Lemma tabulate_entry (r c : nat) (a : matrix) :
  is_matrix r c a -> a = tabulate r c (entry a).
Proof.
  intros [Hr Hc]. unfold tabulate, entry. subst r.
  rewrite <- (map_seq_nth a []) at 1.
  apply map_seq_ext. intros i Hi.
  assert (Hlen : length (nth i a []) = c).
  { rewrite Forall_forall in Hc. apply Hc. now apply nth_In. }
  rewrite <- Hlen. symmetry. apply map_seq_nth.
Qed.

Lemma tabulate_ext (r c : nat) (f g : nat -> nat -> Qc) :
  (forall i j, (i < r)%nat -> (j < c)%nat -> f i j = g i j) ->
  tabulate r c f = tabulate r c g.
Proof.
  intros H. unfold tabulate. apply map_seq_ext. intros i Hi.
  apply map_seq_ext. intros j Hj. now apply H.
Qed.

Lemma nrows_tabulate (r c : nat) (f : nat -> nat -> Qc) : nrows (tabulate r c f) = r.
Proof. unfold nrows, tabulate. now rewrite length_map, length_seq. Qed.

Lemma ncols_tabulate (r c : nat) (f : nat -> nat -> Qc) :
  (0 < r)%nat -> ncols (tabulate r c f) = c.
Proof.
  intros Hr. unfold ncols, tabulate. destruct r as [|r]; [lia |].
  simpl. now rewrite length_map, length_seq.
Qed.

Lemma column_tabulate (r c : nat) (f : nat -> nat -> Qc) (j : nat) :
  (j < c)%nat -> column j (tabulate r c f) = map (fun i => f i j) (seq 0 r).
Proof.
  intros Hj. unfold column, tabulate. rewrite map_map.
  apply map_ext. intros i. now apply nth_map_seq.
Qed.

Lemma T_tabulate (r c : nat) (f : nat -> nat -> Qc) :
  (0 < r)%nat -> T (tabulate r c f) = tabulate c r (fun j i => f i j).
Proof.
  intros Hr. unfold T. rewrite ncols_tabulate by exact Hr.
  unfold tabulate at 2. apply map_seq_ext. intros j Hj.
  now apply column_tabulate.
Qed.

Lemma matmul_tabulate (r n c : nat) (f g : nat -> nat -> Qc) :
  (0 < r)%nat -> (0 < n)%nat ->
  matmul (tabulate r n f) (tabulate n c g)
  = OK (tabulate r c (fun i j => sum_n n (fun k => f i k * g k j))).
Proof.
  intros Hr Hn. unfold matmul.
  rewrite ncols_tabulate, nrows_tabulate, Nat.eqb_refl by exact Hr.
  f_equal. rewrite T_tabulate by exact Hn.
  unfold tabulate. rewrite map_map. apply map_ext. intros i.
  rewrite map_map. apply map_ext. intros j.
  apply dot_map_seq.
Qed.

Lemma smul_tabulate (x : Qc) (r c : nat) (f : nat -> nat -> Qc) :
  smul x (tabulate r c f) = tabulate r c (fun i j => x * f i j).
Proof.
  unfold smul, tabulate. rewrite map_map. apply map_ext. intros i.
  now rewrite map_map.
Qed.

End Tables.

Section Operations.

Local Open Scope Qc_scope.

Lemma getitem_lt {A : Type} (l : list A) (i : nat) (d : A) :
  (i < length l)%nat -> getitem l i = OK (nth i l d).
Proof.
  intros Hi. unfold getitem. now rewrite (nth_error_nth' l d Hi).
Qed.

Lemma getitem_ge {A : Type} (l : list A) (i : nat) :
  (length l <= i)%nat -> getitem l i = Raise IndexError.
Proof.
  intros Hi. unfold getitem.
  apply nth_error_None in Hi. now rewrite Hi.
Qed.

Lemma stretch_id {A : Type} (n : nat) (l : list A) : length l = n -> stretch n l = l.
Proof.
  destruct l as [|x [|y l]]; simpl; intros <-; reflexivity.
Qed.

Lemma broadcast_len_refl (n : nat) : broadcast_len n n = OK n.
Proof. unfold broadcast_len. now rewrite Nat.eqb_refl. Qed.

Lemma broadcast2_tabulate (h : Qc -> Qc -> Qc) (r c : nat) (f g : nat -> nat -> Qc) :
  broadcast2 h (tabulate r c f) (tabulate r c g)
  = OK (tabulate r c (fun i j => h (f i j) (g i j))).
Proof.
  unfold broadcast2. rewrite !nrows_tabulate, broadcast_len_refl. simpl.
  assert (Hc : broadcast_len (ncols (tabulate r c f)) (ncols (tabulate r c g))
               = OK (ncols (tabulate r c f))).
  { destruct r as [|r]; [reflexivity |].
    rewrite !ncols_tabulate by lia. apply broadcast_len_refl. }
  rewrite Hc. simpl. f_equal.
  rewrite !stretch_id by apply nrows_tabulate.
  destruct r as [|r]; [reflexivity |].
  rewrite ncols_tabulate by lia.
  unfold tabulate. rewrite zipWith_map_seq. apply map_ext. intros i.
  rewrite !stretch_id by now rewrite length_map, length_seq.
  apply zipWith_map_seq.
Qed.

Lemma iadd_tabulate (r c : nat) (f g : nat -> nat -> Qc) :
  iadd (tabulate r c f) (tabulate r c g) = OK (tabulate r c (fun i j => f i j + g i j)).
Proof.
  unfold iadd. rewrite broadcast2_tabulate. simpl.
  rewrite !nrows_tabulate, Nat.eqb_refl.
  destruct r as [|r]; [reflexivity |].
  rewrite !ncols_tabulate by lia. now rewrite Nat.eqb_refl.
Qed.

Lemma rmatmul_tabulate (r n : nat) (f : nat -> nat -> Qc) (d : vector) :
  (0 < r)%nat -> length d = n ->
  rmatmul (tabulate r n f) (diags d) = OK (tabulate r n (fun i j => f i j * nth j d 0)).
Proof.
  intros Hr Hd. unfold rmatmul. simpl.
  rewrite ncols_tabulate, Hd, Nat.eqb_refl by exact Hr. f_equal.
  unfold tabulate. rewrite map_map. apply map_ext. intros i.
  rewrite <- (map_seq_nth d 0) at 1. rewrite Hd.
  apply zipWith_map_seq.
Qed.

Lemma row_tabulate (x : list Qc) : [x] = tabulate 1 (length x) (fun _ j => nth j x 0).
Proof. unfold tabulate. simpl. now rewrite map_seq_nth. Qed.

Lemma reshape_column_tabulate (v : vector) :
  reshape_column v = tabulate (length v) 1 (fun i _ => nth i v 0).
Proof.
  unfold reshape_column, tabulate. rewrite <- (map_seq_nth v 0) at 1.
  now rewrite map_map.
Qed.

Lemma outer_tabulate (u v : vector) :
  outer u v = tabulate (length u) (length v) (fun i j => nth i u 0 * nth j v 0).
Proof.
  unfold outer, tabulate. rewrite <- (map_seq_nth u 0) at 1. rewrite map_map.
  apply map_ext. intros i. rewrite <- (map_seq_nth v 0) at 1. now rewrite map_map.
Qed.

Lemma nth_square (e : vector) (i : nat) : nth i (square e) 0 = nth i e 0 ^ 2.
Proof.
  unfold square. assert (H0 : (0 : Qc) = 0 ^ 2) by (rewrite Qc_sq; ring).
  rewrite H0 at 1. apply (map_nth (fun x => x ^ 2)).
Qed.

Lemma length_square (e : vector) : length (square e) = length e.
Proof. apply length_map. Qed.

Lemma map_const_seq {A : Type} (x : A) (s n : nat) :
  map (fun _ => x) (seq s n) = repeat x n.
Proof. revert s. induction n as [|n IH]; intros s; simpl; [reflexivity | now rewrite IH]. Qed.

Lemma zeros_tabulate (r c : nat) : zeros r c = tabulate r c (fun _ _ => 0).
Proof. unfold zeros, tabulate. now rewrite !map_const_seq. Qed.

Lemma set_nth_cons_S {A : Type} (i : nat) (x a : A) (l : list A) :
  set_nth (S i) x (a :: l) = a :: set_nth i x l.
Proof. reflexivity. Qed.

Lemma nth_set_nth {A : Type} (l : list A) (i j : nat) (x d : A) :
  (i < length l)%nat -> nth j (set_nth i x l) d = if i =? j then x else nth j l d.
Proof.
  revert i j. induction l as [|a l IH]; intros i j Hi; simpl in Hi; [lia |].
  destruct i as [|i].
  - destruct j; reflexivity.
  - rewrite set_nth_cons_S. destruct j as [|j]; [reflexivity |].
    simpl. apply IH. lia.
Qed.

Lemma length_set_nth {A : Type} (l : list A) (i : nat) (x : A) :
  length (set_nth i x l) = length l.
Proof.
  revert i. induction l as [|a l IH]; intros [|i]; try reflexivity.
  rewrite set_nth_cons_S. simpl. now rewrite IH.
Qed.

Lemma combine_seq_repeat {A : Type} (x : A) (s n : nat) :
  combine (seq s n) (repeat x n) = map (fun i => (i, x)) (seq s n).
Proof. revert s. induction n as [|n IH]; intros s; simpl; [reflexivity | now rewrite IH]. Qed.

Lemma fill_diagonal_zeros (n : nat) (val : vector) :
  fill_diagonal (zeros n n) val
  = tabulate n n (fun i j => if i =? j then recycled val i else 0).
Proof.
  destruct val as [|v0 val].
  - simpl. rewrite zeros_tabulate. apply tabulate_ext. intros i j _ _.
    now destruct (i =? j).
  - unfold fill_diagonal, recycled, zeros.
    rewrite repeat_length, combine_seq_repeat, map_map. simpl fst. simpl snd.
    unfold tabulate. apply map_seq_ext. intros i Hi.
    apply (nth_ext _ _ 0 0).
    + now rewrite length_set_nth, repeat_length, length_map, length_seq.
    + intros j Hj. rewrite length_set_nth, repeat_length in Hj.
      rewrite nth_set_nth by now rewrite repeat_length.
      rewrite (nth_map_seq _ n j 0) by exact Hj.
      destruct (i =? j); [reflexivity |].
      apply nth_repeat.
Qed.

Lemma recycled_same (val : vector) (i : nat) :
  (i < length val)%nat -> recycled val i = nth i val 0.
Proof.
  intros Hi. unfold recycled. destruct val as [|v0 val]; [simpl in Hi; lia |].
  rewrite Nat.mod_small by exact Hi. now apply nth_indep.
Qed.

Lemma matvec_tabulate (r n : nat) (f : nat -> nat -> Qc) (v : vector) :
  (0 < r)%nat -> length v = n ->
  matvec (tabulate r n f) v
  = OK (map (fun i => sum_n n (fun k => f i k * nth k v 0)) (seq 0 r)).
Proof.
  intros Hr Hv. unfold matvec.
  rewrite ncols_tabulate, Hv, Nat.eqb_refl by exact Hr. f_equal.
  unfold tabulate. rewrite map_map. apply map_ext. intros i.
  rewrite <- (map_seq_nth v 0) at 1. rewrite Hv. apply dot_map_seq.
Qed.

End Operations.

(** ** What each option computes *)

Section Options.

Local Open Scope Qc_scope.

Variables (n K : nat) (X : matrix).
Hypothesis Hn : (0 < n)%nat.
Hypothesis HK : (0 < K)%nat.
Hypothesis HX : is_matrix n K X.

Lemma length_row (i : nat) : (i < n)%nat -> length (nth i X []) = K.
Proof.
  intros Hi. destruct HX as [Hr Hc]. rewrite Forall_forall in Hc.
  apply Hc, nth_In. lia.
Qed.

Lemma T_design : T X = tabulate K n (fun a i => entry X i a).
Proof. rewrite (tabulate_entry n K X HX) at 1. now apply T_tabulate. Qed.

Lemma weighted_ext (w w' : nat -> Qc) :
  (forall i, (i < n)%nat -> w i = w' i) -> weighted n K w X = weighted n K w' X.
Proof.
  intros H. unfold weighted. apply tabulate_ext. intros a b _ _.
  apply sum_n_ext. intros i Hi. now rewrite H.
Qed.

(** One pass of the loop of option 1. *)
Lemma accumulate_step (e_hat : vector) (A : nat -> nat -> Qc) (i : nat) (range : list nat) :
  (i < n)%nat -> (i < length e_hat)%nat ->
  accumulate X e_hat (i :: range) (tabulate K K A)
  = accumulate X e_hat range
      (tabulate K K (fun a b => A a b + squared e_hat i * (entry X i a * entry X i b))).
Proof.
  intros Hi He. cbn [accumulate].
  rewrite (getitem_lt e_hat i 0 He). cbn [bind].
  rewrite (getitem_lt X i []) by (destruct HX; lia). cbn [bind].
  rewrite (row_tabulate (nth i X [])), (length_row i Hi).
  rewrite T_tabulate, smul_tabulate, matmul_tabulate by lia. cbn [bind].
  rewrite iadd_tabulate. cbn [bind]. f_equal.
  apply tabulate_ext. intros a b _ _. rewrite sum_n_1.
  unfold squared, entry. ring.
Qed.

Lemma accumulate_seq (e_hat : vector) (k m : nat) (A : nat -> nat -> Qc) :
  (m + k <= n)%nat -> (m + k <= length e_hat)%nat ->
  accumulate X e_hat (seq m k) (tabulate K K A)
  = OK (tabulate K K (fun a b =>
          A a b + sum (map (fun i => squared e_hat i * (entry X i a * entry X i b))
                           (seq m k)))).
Proof.
  revert m A. induction k as [|k IH]; intros m A Hm He.
  - simpl. f_equal. apply tabulate_ext. intros a b _ _. ring.
  - simpl seq. rewrite accumulate_step by lia.
    rewrite IH by lia. f_equal.
    apply tabulate_ext. intros a b _ _. simpl. ring.
Qed.

(** Option 1 adds [sum_i e_hat[i]**2 * outer(x_i, x_i)] to what [XXe2]
    held; residuals beyond the [n]-th are not read. *)
Lemma computeMiddle_1 (XXe2 : matrix) (e_hat : vector) :
  is_matrix K K XXe2 -> (n <= length e_hat)%nat ->
  computeMiddle n 1 XXe2 X e_hat
  = OK (tabulate K K (fun a b =>
          entry XXe2 a b + entry (weighted n K (squared e_hat) X) a b)).
Proof.
  intros HA He. unfold computeMiddle.
  rewrite (tabulate_entry K K XXe2 HA) at 1.
  rewrite accumulate_seq by lia. f_equal.
  apply tabulate_ext. intros a b Ha Hb.
  unfold weighted. now rewrite entry_tabulate.
Qed.

(** Option 2 computes [X' D X] for the diagonal [np.fill_diagonal] wrote,
    whatever the length of [e_hat]. *)
Lemma computeMiddle_2_recycled (XXe2 : matrix) (e_hat : vector) :
  computeMiddle n 2 XXe2 X e_hat = OK (weighted n K (recycled (square e_hat)) X).
Proof.
  unfold computeMiddle. rewrite fill_diagonal_zeros, T_design.
  rewrite matmul_tabulate by lia. cbn [bind].
  rewrite (tabulate_entry n K X HX) at 1.
  rewrite matmul_tabulate by lia. f_equal.
  unfold weighted. apply tabulate_ext. intros a b Ha Hb.
  apply sum_n_ext. intros i Hi.
  rewrite sum_n_delta by exact Hi. ring.
Qed.

Lemma recycled_square (e_hat : vector) (i : nat) :
  length e_hat = n -> (i < n)%nat -> recycled (square e_hat) i = squared e_hat i.
Proof.
  intros He Hi. rewrite recycled_same by (rewrite length_square; lia).
  apply nth_square.
Qed.

Lemma computeMiddle_2 (XXe2 : matrix) (e_hat : vector) :
  length e_hat = n ->
  computeMiddle n 2 XXe2 X e_hat = OK (weighted n K (squared e_hat) X).
Proof.
  intros He. rewrite computeMiddle_2_recycled. f_equal.
  apply weighted_ext. intros i Hi. now apply recycled_square.
Qed.

Lemma sparse_product (e_hat : vector) :
  length e_hat = n ->
  (XtD <- rmatmul (T X) (diags (square e_hat)) ;; matmul XtD X)
  = OK (weighted n K (squared e_hat) X).
Proof.
  intros He. rewrite T_design.
  rewrite rmatmul_tabulate by (rewrite ?length_square; lia). cbn [bind].
  rewrite (tabulate_entry n K X HX) at 1.
  rewrite matmul_tabulate by lia. f_equal.
  unfold weighted. apply tabulate_ext. intros a b Ha Hb.
  apply sum_n_ext. intros i Hi. rewrite nth_square. unfold squared. ring.
Qed.

Lemma computeMiddle_3 (XXe2 : matrix) (e_hat : vector) :
  length e_hat = n ->
  computeMiddle n 3 XXe2 X e_hat = OK (weighted n K (squared e_hat) X).
Proof. intros He. unfold computeMiddle. now apply sparse_product. Qed.

(** Option 4 of the benchmark cell multiplies [X'] and the column [e_hat]
    as matrices: it computes [(X' e_hat) (X' e_hat)']. *)
Lemma computeMiddle_4 (XXe2 : matrix) (e_hat : vector) :
  length e_hat = n ->
  computeMiddle n 4 XXe2 X e_hat = OK (score_outer n K e_hat X).
Proof.
  intros He. unfold computeMiddle.
  rewrite T_design, reshape_column_tabulate, He.
  rewrite matmul_tabulate by lia. cbn [bind].
  rewrite T_tabulate, matmul_tabulate by lia. f_equal.
  unfold score_outer. apply tabulate_ext. intros a b _ _.
  now rewrite sum_n_1.
Qed.

(** The options of the real-data cell. *)
Lemma accumulate_outer_seq (e_hat : vector) (k m : nat) (A : nat -> nat -> Qc) :
  (m + k <= n)%nat -> (m + k <= length e_hat)%nat ->
  accumulate_outer X e_hat (seq m k) (tabulate K K A)
  = OK (tabulate K K (fun a b =>
          A a b + sum (map (fun i => squared e_hat i * (entry X i a * entry X i b))
                           (seq m k)))).
Proof.
  revert m A. induction k as [|k IH]; intros m A Hm He.
  - simpl. f_equal. apply tabulate_ext. intros a b _ _. ring.
  - cbn [seq accumulate_outer].
    rewrite (getitem_lt e_hat m 0) by lia. cbn [bind].
    rewrite (getitem_lt X m []) by (destruct HX; lia). cbn [bind].
    rewrite outer_tabulate, (length_row m) by lia.
    rewrite smul_tabulate, iadd_tabulate. cbn [bind].
    rewrite IH by lia. f_equal.
    apply tabulate_ext. intros a b _ _. unfold sum. cbn [map fold_right].
    unfold squared, entry. ring.
Qed.

Lemma computeMiddle_realdata_1 (e_hat : vector) :
  (n <= length e_hat)%nat ->
  computeMiddle_realdata n K 1 X e_hat = OK (weighted n K (squared e_hat) X).
Proof.
  intros He. unfold computeMiddle_realdata.
  rewrite zeros_tabulate, accumulate_outer_seq by lia. f_equal.
  unfold weighted. apply tabulate_ext. intros a b _ _.
  fold (sum_n n (fun i => squared e_hat i * (entry X i a * entry X i b))). ring.
Qed.

Lemma computeMiddle_realdata_3 (e_hat : vector) :
  length e_hat = n ->
  computeMiddle_realdata n K 3 X e_hat = OK (weighted n K (squared e_hat) X).
Proof. intros He. unfold computeMiddle_realdata. now apply sparse_product. Qed.

Lemma broadcast_len_1 (c : nat) : broadcast_len c 1 = OK c.
Proof.
  unfold broadcast_len. destruct (Nat.eqb_spec c 1) as [->|Hc]; [reflexivity |].
  reflexivity.
Qed.

(** [X * e_hat[:, np.newaxis]] scales row [i] of [X] by [e_hat[i]]. *)
Lemma multiply_column_tabulate (f : nat -> nat -> Qc) (e_hat : vector) :
  length e_hat = n ->
  multiply (tabulate n K f) (reshape_column e_hat)
  = OK (tabulate n K (fun i j => f i j * nth i e_hat 0)).
Proof.
  intros He. unfold multiply, broadcast2.
  rewrite reshape_column_tabulate, He.
  rewrite !nrows_tabulate, broadcast_len_refl. cbn [bind].
  rewrite !ncols_tabulate, broadcast_len_1 by lia. cbn [bind]. f_equal.
  rewrite !stretch_id by apply nrows_tabulate.
  unfold tabulate at 1 2. rewrite zipWith_map_seq.
  unfold tabulate. apply map_seq_ext. intros i Hi.
  rewrite stretch_id by now rewrite length_map, length_seq.
  simpl. rewrite <- (map_const_seq _ 0 K). apply zipWith_map_seq.
Qed.

Lemma multiply_column (e_hat : vector) :
  length e_hat = n ->
  multiply X (reshape_column e_hat)
  = OK (tabulate n K (fun i j => entry X i j * nth i e_hat 0)).
Proof.
  intros He. rewrite <- (multiply_column_tabulate (entry X) e_hat He).
  now rewrite <- (tabulate_entry n K X HX).
Qed.

Lemma computeMiddle_realdata_4 (e_hat : vector) :
  length e_hat = n ->
  computeMiddle_realdata n K 4 X e_hat = OK (weighted n K (squared e_hat) X).
Proof.
  intros He. unfold computeMiddle_realdata.
  rewrite multiply_column by exact He. cbn [bind].
  rewrite T_tabulate, matmul_tabulate by lia. f_equal.
  unfold weighted. apply tabulate_ext. intros a b _ _.
  apply sum_n_ext. intros i Hi. unfold squared. rewrite Qc_sq. ring.
Qed.

End Options.

(** ** The sandwich step *)

Section Sandwich.

Local Open Scope Qc_scope.

Variables (n K : nat) (X : matrix).
Hypothesis Hn : (0 < n)%nat.
Hypothesis HK : (0 < K)%nat.
Hypothesis HX : is_matrix n K X.

(** [X.T @ X] is the table of the sums [sum_i X[i, a] * X[i, b]]. *)
Lemma gram_design : matmul (T X) X = OK (weighted n K (fun _ => 1) X).
Proof.
  rewrite (T_design n K X Hn HX).
  rewrite (tabulate_entry n K X HX) at 1.
  rewrite matmul_tabulate by lia. f_equal.
  unfold weighted. apply tabulate_ext. intros a b _ _.
  apply sum_n_ext. intros i _. ring.
Qed.

Lemma is_square_tabulate (f : nat -> nat -> Qc) : is_square (tabulate K K f) = true.
Proof.
  unfold is_square. apply forallb_forall. intros row Hrow.
  rewrite nrows_tabulate. apply Nat.eqb_eq.
  destruct (is_matrix_tabulate K K f) as [_ Hc].
  rewrite Forall_forall in Hc. now apply Hc.
Qed.

(** The sandwich step reads [X] only through [X.T @ X]. *)
Lemma sandwich_gram (XXe2 : matrix) :
  sandwich X XXe2
  = (XX_inv <- inv (weighted n K (fun _ => 1) X) ;;
     t <- matmul XX_inv XXe2 ;;
     matmul t XX_inv).
Proof. unfold sandwich. now rewrite gram_design. Qed.

End Sandwich.

(** ** Reordering the observations *)

Section Reordering.

Local Open Scope Qc_scope.

Lemma map_fst_combine {A B : Type} (u : list A) (v : list B) :
  length u = length v -> map fst (combine u v) = u.
Proof.
  revert v. induction u as [|a u IH]; intros [|b v] H; simpl in *; try discriminate.
  - reflexivity.
  - f_equal. apply IH. lia.
Qed.

Lemma map_snd_combine {A B : Type} (u : list A) (v : list B) :
  length u = length v -> map snd (combine u v) = v.
Proof.
  revert v. induction u as [|a u IH]; intros [|b v] H; simpl in *; try discriminate.
  - reflexivity.
  - f_equal. apply IH. lia.
Qed.

Variables (n K : nat) (X X' : matrix) (e_hat e_hat' : vector).
Hypothesis HX : is_matrix n K X.
Hypothesis He : length e_hat = n.
Hypothesis Hlen' : length X' = length e_hat'.
Hypothesis Hperm : Permutation (combine X e_hat) (combine X' e_hat').

Lemma reordered_rows : Permutation X X'.
Proof.
  destruct HX as [Hr _].
  rewrite <- (map_fst_combine X e_hat), <- (map_fst_combine X' e_hat') by lia.
  now apply Permutation_map.
Qed.

Lemma reordered_is_matrix : is_matrix n K X'.
Proof.
  destruct HX as [Hr Hc]. split.
  - rewrite <- Hr. symmetry. apply Permutation_length, reordered_rows.
  - apply (Permutation_Forall reordered_rows Hc).
Qed.

Lemma reordered_length : length e_hat' = n.
Proof. destruct reordered_is_matrix as [Hr _]. lia. Qed.

(** A sum over the observations does not depend on their order. *)
Lemma reordered_sum (F : list Qc -> Qc -> Qc) :
  sum_n n (fun i => F (nth i X []) (nth i e_hat 0))
  = sum_n n (fun i => F (nth i X' []) (nth i e_hat' 0)).
Proof.
  destruct HX as [Hr _]. destruct reordered_is_matrix as [Hr' _].
  rewrite <- Hr at 1. rewrite <- Hr'.
  rewrite !sum_n_combine by lia.
  now apply sum_map_Permutation.
Qed.

Lemma reordered_weighted :
  weighted n K (squared e_hat) X = weighted n K (squared e_hat') X'.
Proof.
  unfold weighted. apply tabulate_ext. intros a b _ _.
  apply (reordered_sum (fun x r => r ^ 2 * (nth a x 0 * nth b x 0))).
Qed.



End Reordering.

(** ** Concrete arrays *)

Section Concrete.

Lemma numbers_inj (a b : matrix) : numbers a = numbers b -> a = b.
Proof.
  revert b. induction a as [|u a IH]; intros [|v b] H; simpl in H; try discriminate.
  - reflexivity.
  - injection H as Huv Hab. f_equal; [| now apply IH].
    clear IH Hab. revert v Huv.
    induction u as [|x u IHu]; intros [|y v] H; simpl in H; try discriminate.
    + reflexivity.
    + injection H as Hxy Huv. f_equal; [now apply Qc_decomp | now apply IHu].
Qed.

Lemma observe_inj (r1 r2 : result matrix) : observe r1 = observe r2 -> r1 = r2.
Proof.
  destruct r1 as [a|x], r2 as [b|y]; simpl; intros H; try discriminate.
  - injection H as H. f_equal. now apply numbers_inj.
  - injection H as ->. reflexivity.
Qed.

End Concrete.

(** Evaluates both sides of a closed equation between results. *)
Ltac run := apply observe_inj; vm_compute; reflexivity.

(** Refutes a closed equation between results by evaluating both sides. *)
Ltac differ :=
  let H := fresh in
  intros H; apply (f_equal observe) in H; vm_compute in H; discriminate H.

(** ** The sum of the weighted outer products *)

Section Specification.

Local Open Scope Qc_scope.

Lemma sum_n_shift (n : nat) (f : nat -> Qc) :
  sum_n (S n) f = f 0%nat + sum_n n (fun i => f (S i)).
Proof. unfold sum_n. simpl. now rewrite <- seq_shift, map_map. Qed.

Lemma outer_sum_weighted (K : nat) (X : matrix) (e_hat : vector) :
  length e_hat = length X -> Forall (fun row => length row = K) X ->
  outer_sum K X e_hat = weighted (length X) K (squared e_hat) X.
Proof.
  revert e_hat. induction X as [|x X IH]; intros [|r e_hat] Hlen Hrows;
    simpl in Hlen; try discriminate.
  - simpl. rewrite zeros_tabulate. unfold weighted. apply tabulate_ext.
    intros a b _ _. reflexivity.
  - apply Forall_cons_iff in Hrows. destruct Hrows as [Hx HX].
    cbn [outer_sum]. rewrite IH by (assumption || lia).
    rewrite outer_tabulate, Hx, smul_tabulate.
    unfold weighted, tabulate. rewrite zipWith_map_seq.
    apply map_ext. intros a. rewrite zipWith_map_seq.
    apply map_ext. intros b. cbn [length]. rewrite sum_n_shift.
    unfold squared, entry. simpl. ring.
Qed.

Lemma entry_zeros (r c i j : nat) : (i < r)%nat -> (j < c)%nat -> entry (zeros r c) i j = 0.
Proof. intros Hi Hj. rewrite zeros_tabulate. now rewrite entry_tabulate. Qed.

Lemma is_matrix_zeros (r c : nat) : is_matrix r c (zeros r c).
Proof. rewrite zeros_tabulate. apply is_matrix_tabulate. Qed.

(** Option 1 entered with [XXe2] all zeros. *)
Lemma computeMiddle_1_zeros (n K : nat) (X : matrix) (e_hat : vector) :
  (0 < n)%nat -> (0 < K)%nat -> is_matrix n K X -> (n <= length e_hat)%nat ->
  computeMiddle n 1 (zeros K K) X e_hat = OK (weighted n K (squared e_hat) X).
Proof.
  intros Hn HK HX He.
  rewrite (computeMiddle_1 n K X Hn HK HX) by (apply is_matrix_zeros || exact He).
  f_equal. unfold weighted at 2. apply tabulate_ext. intros a b Ha Hb.
  rewrite entry_zeros by assumption.
  unfold weighted. rewrite entry_tabulate by assumption. ring.
Qed.

End Specification.

(** ** Properties of the middle term and of the sandwich *)

Section Properties.

Local Open Scope Qc_scope.

Lemma T_symmetric (K : nat) (f : nat -> nat -> Qc) :
  (0 < K)%nat ->
  (forall a b, (a < K)%nat -> (b < K)%nat -> f a b = f b a) ->
  T (tabulate K K f) = tabulate K K f.
Proof.
  intros HK Hf. rewrite T_tabulate by exact HK.
  apply tabulate_ext. intros a b Ha Hb. now apply Hf.
Qed.

Lemma entry_symmetric (K : nat) (a : matrix) (i j : nat) :
  (0 < K)%nat -> is_matrix K K a -> T a = a ->
  (i < K)%nat -> (j < K)%nat -> entry a i j = entry a j i.
Proof.
  intros HK Ha Hsym Hi Hj. rewrite <- Hsym at 1.
  rewrite (tabulate_entry K K a Ha) at 1.
  rewrite T_tabulate by exact HK. now rewrite entry_tabulate.
Qed.

Lemma weighted_symmetric (n K : nat) (w : nat -> Qc) (X : matrix) :
  (0 < K)%nat -> T (weighted n K w X) = weighted n K w X.
Proof.
  intros HK. unfold weighted. apply T_symmetric; [exact HK |].
  intros a b _ _. apply sum_n_ext. intros i _. ring.
Qed.

Lemma score_outer_symmetric (n K : nat) (e_hat : vector) (X : matrix) :
  (0 < K)%nat -> T (score_outer n K e_hat X) = score_outer n K e_hat X.
Proof.
  intros HK. unfold score_outer. apply T_symmetric; [exact HK |].
  intros a b _ _. ring.
Qed.

End Properties.

(** C3, as stated, does not hold: on three observations option 2 returns
    the plain sum of the weighted outer products, [[6, 6], [6, 8]], and not
    the specification's [(1/n)]-normalised matrix [[2, 2], [2, 8/3]]. *)
Lemma middle_not_normalised :
  computeMiddle 3 2 (zeros 2 2) X3 e3 = OK (mat [[6; 6]; [6; 8]]%Q) /\
  SandwichMiddle 2 X3 e3 = mat [[2; 2]; [2; 8 # 3]]%Q /\
  computeMiddle 3 2 (zeros 2 2) X3 e3 <> OK (SandwichMiddle 2 X3 e3).
Proof.
  split; [run |]. split; [apply numbers_inj; vm_compute; reflexivity | differ].
Qed.

(** C3, amended: on valid inputs the middle term is the sum
    [sum_i residual_i^2 * outer(x_i, x_i)] with no [1/n] factor: under
    options 2 and 3 of the benchmark cell, under option 1 of the benchmark
    cell when [XXe2] holds zeros on entry, and under the three options of
    the real-data cell. *)
Theorem middle_is_outer_sum (n K : nat) (XXe2 X : matrix) (residuals : vector) :
  valid n K X residuals ->
  computeMiddle n 1 (zeros K K) X residuals = OK (outer_sum K X residuals) /\
  computeMiddle n 2 XXe2 X residuals = OK (outer_sum K X residuals) /\
  computeMiddle n 3 XXe2 X residuals = OK (outer_sum K X residuals) /\
  computeMiddle_realdata n K 1 X residuals = OK (outer_sum K X residuals) /\
  computeMiddle_realdata n K 3 X residuals = OK (outer_sum K X residuals) /\
  computeMiddle_realdata n K 4 X residuals = OK (outer_sum K X residuals).
Proof.
  intros (Hn & HK & HX & He).
  assert (Hsum : outer_sum K X residuals = weighted n K (squared residuals) X).
  { destruct HX as [Hr Hc]. rewrite <- Hr. apply outer_sum_weighted; [lia | exact Hc]. }
  rewrite Hsum. repeat split.
  - apply computeMiddle_1_zeros; (assumption || lia).
  - now apply computeMiddle_2.
  - now apply computeMiddle_3.
  - apply computeMiddle_realdata_1; (assumption || lia).
  - now apply computeMiddle_realdata_3.
  - now apply computeMiddle_realdata_4.
Qed.

Lemma valid_X3_e3 : valid 3 2 X3 e3.
Proof.
  unfold valid, is_matrix. repeat split; try lia.
  repeat constructor.
Qed.

Lemma middle_is_outer_sum_witness :
  valid 3 2 X3 e3 /\
  computeMiddle 3 3 (zeros 2 2) X3 e3 = OK (outer_sum 2 X3 e3).
Proof.
  split; [exact valid_X3_e3 |].
  apply (middle_is_outer_sum 3 2 (zeros 2 2) X3 e3 valid_X3_e3).
Defined.

(** From a symmetric [K] by [K] matrix on entry every option returns a
    symmetric [K] by [K] matrix. *)
Lemma middle_keeps_symmetry (n K opt : nat) (XXe2 X : matrix) (residuals : vector) :
  valid n K X residuals -> In opt [1; 2; 3; 4] ->
  is_matrix K K XXe2 -> T XXe2 = XXe2 ->
  exists M, computeMiddle n opt XXe2 X residuals = OK M /\ is_matrix K K M /\ T M = M.
Proof.
  intros (Hn & HK & HX & He) Hopt HA Hsym.
  simpl in Hopt. destruct Hopt as [<-|[<-|[<-|[<-|[]]]]].
  - eexists. split; [| split].
    + apply (computeMiddle_1 n K X Hn HK HX); [exact HA | lia].
    + apply is_matrix_tabulate.
    + apply T_symmetric; [exact HK |]. intros a b Ha Hb.
      rewrite (entry_symmetric K XXe2 a b) by assumption.
      unfold weighted. rewrite !entry_tabulate by assumption.
      f_equal. apply sum_n_ext. intros i _. ring.
  - eexists. split; [now apply (computeMiddle_2 n K X Hn HK HX) |].
    split; [apply is_matrix_tabulate | now apply weighted_symmetric].
  - eexists. split; [now apply (computeMiddle_3 n K X Hn HK HX) |].
    split; [apply is_matrix_tabulate | now apply weighted_symmetric].
  - eexists. split; [now apply (computeMiddle_4 n K X Hn HK HX) |].
    split; [apply is_matrix_tabulate | now apply score_outer_symmetric].
Qed.

(** C6: on valid inputs the matrix [computeMiddle] returns is symmetric
    under each of the four options.  Option 1 adds to the matrix [XXe2]
    holds on entry, which the benchmark cell initialises with zeros: it is
    taken to be a symmetric [K] by [K] matrix. *)
Theorem middle_symmetric (n K opt : nat) (XXe2 X : matrix) (residuals : vector) :
  valid n K X residuals -> In opt [1; 2; 3; 4] ->
  is_matrix K K XXe2 -> T XXe2 = XXe2 ->
  exists M, computeMiddle n opt XXe2 X residuals = OK M /\ T M = M.
Proof.
  intros Hv Hopt HA Hsym.
  destruct (middle_keeps_symmetry n K opt XXe2 X residuals Hv Hopt HA Hsym)
    as (M & HM & _ & HT).
  now exists M.
Qed.

Lemma middle_symmetric_witness :
  exists M, computeMiddle 3 1 (zeros 2 2) X3 e3 = OK M /\ T M = M.
Proof.
  apply (middle_symmetric 3 2 1 (zeros 2 2) X3 e3 valid_X3_e3).
  - simpl. left. reflexivity.
  - apply is_matrix_zeros.
  - reflexivity.
Defined.

(** The real-data cell returns a symmetric matrix as well. *)
Lemma middle_realdata_symmetric (n K opt : nat) (X : matrix) (residuals : vector) :
  valid n K X residuals -> In opt [1; 3; 4] ->
  exists M, computeMiddle_realdata n K opt X residuals = OK M /\ T M = M.
Proof.
  intros (Hn & HK & HX & He) Hopt.
  exists (weighted n K (squared residuals) X). split; [| now apply weighted_symmetric].
  simpl in Hopt. destruct Hopt as [<-|[<-|[<-|[]]]].
  - apply computeMiddle_realdata_1; (assumption || lia).
  - now apply computeMiddle_realdata_3.
  - now apply computeMiddle_realdata_4.
Qed.




(** ** Errors *)

(** Splits an equation between concrete arrays into its entries. *)
Ltac entries :=
  repeat match goal with
         | |- OK _ = OK _ => f_equal
         | |- _ :: _ = _ :: _ => f_equal
         end.

Section Errors.

Local Open Scope Qc_scope.

Lemma OK_inj {A : Type} (a b : A) : OK a = OK b -> a = b.
Proof. intros H. now injection H. Qed.

Lemma det_2x2 (a b c d : Qc) : det [[a; b]; [c; d]] = a * d - b * c.
Proof. unfold det, sum. cbn. ring. Qed.

Lemma det_tabulate_2 (f : nat -> nat -> Qc) :
  det (tabulate 2 2 f) = f 0%nat 0%nat * f 1%nat 1%nat - f 0%nat 1%nat * f 1%nat 0%nat.
Proof. apply det_2x2. Qed.

Lemma is_matrix_2x2 (B : matrix) :
  is_matrix 2 2 B -> exists p q r s, B = [[p; q]; [r; s]].
Proof.
  intros HB. rewrite (tabulate_entry 2 2 B HB).
  exists (entry B 0 0), (entry B 0 1), (entry B 1 0), (entry B 1 1). reflexivity.
Qed.

Lemma matmul_2x2 (a b c d p q r s : Qc) :
  matmul [[a; b]; [c; d]] [[p; q]; [r; s]]
  = OK [[a * p + b * r; a * q + b * s]; [c * p + d * r; c * q + d * s]].
Proof.
  unfold matmul, T, column, ncols, nrows, dot, sum.
  cbn [length hd Nat.eqb seq map nth zipWith fold_right].
  entries; ring.
Qed.

(** In dimension 2 a matrix with determinant zero has no inverse ... *)
Lemma singular_2x2_no_inverse (A B : matrix) :
  is_matrix 2 2 A -> is_matrix 2 2 B -> det A = 0 -> matmul A B <> OK (identity 2).
Proof.
  intros HA HB Hdet Hmul.
  destruct (is_matrix_2x2 A HA) as (a & b & c & d & ->).
  destruct (is_matrix_2x2 B HB) as (p & q & r & s & ->).
  rewrite det_2x2 in Hdet. rewrite matmul_2x2 in Hmul.
  apply OK_inj in Hmul.
  pose proof (f_equal (fun m => entry m 0 0) Hmul) as H1.
  pose proof (f_equal (fun m => entry m 0 1) Hmul) as H2.
  pose proof (f_equal (fun m => entry m 1 0) Hmul) as H3.
  pose proof (f_equal (fun m => entry m 1 1) Hmul) as H4.
  unfold identity, tabulate, entry in H1, H2, H3, H4.
  cbn [seq map nth Nat.eqb] in H1, H2, H3, H4.
  assert (H : (a * d - b * c) * (p * s - q * r)
              = (a * p + b * r) * (c * q + d * s) - (a * q + b * s) * (c * p + d * r))
    by ring.
  rewrite Hdet, H1, H2, H3, H4 in H.
  apply Q_apart_0_1.
  transitivity (1 * 1 - 0 * 0); [ring |].
  rewrite <- H. ring.
Qed.

(** ... and [np.linalg.inv] returns the inverse of one with a determinant
    other than zero. *)
Lemma inv_2x2 (A : matrix) :
  is_matrix 2 2 A -> det A <> 0 ->
  exists B, inv A = OK B /\ is_matrix 2 2 B /\
            matmul A B = OK (identity 2) /\ matmul B A = OK (identity 2).
Proof.
  intros HA Hdet.
  destruct (is_matrix_2x2 A HA) as (a & b & c & d & ->).
  assert (Hd : a * d - b * c <> 0) by now rewrite <- det_2x2.
  unfold inv. cbn [is_square forallb nrows length Nat.eqb andb].
  destruct (Qc_eqb (det [[a; b]; [c; d]]) 0) eqn:E.
  { apply Qc_eqb_eq in E. contradiction. }
  rewrite det_2x2.
  eexists. split; [reflexivity |]. split.
  { cbn. split; [reflexivity | repeat constructor]. }
  cbn [seq map del_nth firstn skipn app Nat.add].
  rewrite !matmul_2x2. unfold identity, tabulate. cbn [seq map Nat.eqb].
  unfold det, sum, sign.
  cbn [nrows length det_rec seq map nth fold_right del_nth firstn skipn app Nat.even].
  unfold sum, sign. cbn [fold_right Nat.even].
  split; entries; field; exact Hd.
Qed.

Variables (n : nat) (X : matrix).
Hypothesis Hn : (0 < n)%nat.
Hypothesis HX : is_matrix n 2 X.

(** Two identical columns, or a column of zeros, make [X.T @ X] singular. *)
Lemma identical_columns_singular :
  (forall i, (i < n)%nat -> entry X i 1 = entry X i 0) ->
  det (weighted n 2 (fun _ => 1) X) = 0.
Proof.
  intros Hcol. unfold weighted. rewrite det_tabulate_2.
  rewrite (sum_n_ext n (fun i => 1 * (entry X i 1 * entry X i 1))
                       (fun i => 1 * (entry X i 0 * entry X i 0)))
    by (intros i Hi; now rewrite Hcol).
  rewrite (sum_n_ext n (fun i => 1 * (entry X i 0 * entry X i 1))
                       (fun i => 1 * (entry X i 0 * entry X i 0)))
    by (intros i Hi; now rewrite Hcol).
  rewrite (sum_n_ext n (fun i => 1 * (entry X i 1 * entry X i 0))
                       (fun i => 1 * (entry X i 0 * entry X i 0)))
    by (intros i Hi; now rewrite Hcol).
  ring.
Qed.

Lemma zero_column_singular :
  (forall i, (i < n)%nat -> entry X i 1 = 0) ->
  det (weighted n 2 (fun _ => 1) X) = 0.
Proof.
  intros Hcol. unfold weighted. rewrite det_tabulate_2.
  rewrite (sum_n_ext n (fun i => 1 * (entry X i 1 * entry X i 1)) (fun _ => 0))
    by (intros i Hi; rewrite Hcol by exact Hi; ring).
  rewrite (sum_n_ext n (fun i => 1 * (entry X i 0 * entry X i 1)) (fun _ => 0))
    by (intros i Hi; rewrite Hcol by exact Hi; ring).
  rewrite sum_n_0. ring.
Qed.

End Errors.

(** On valid inputs no option raises: each returns a [K] by [K] matrix. *)
Lemma middle_returns (n K opt : nat) (XXe2 X : matrix) (residuals : vector) :
  valid n K X residuals -> In opt [1; 2; 3; 4] -> is_matrix K K XXe2 ->
  exists M, computeMiddle n opt XXe2 X residuals = OK M /\ is_matrix K K M.
Proof.
  intros (Hn & HK & HX & He) Hopt HA.
  simpl in Hopt. destruct Hopt as [<-|[<-|[<-|[<-|[]]]]]; eexists; split.
  - apply (computeMiddle_1 n K X Hn HK HX); [exact HA | lia].
  - apply is_matrix_tabulate.
  - now apply (computeMiddle_2 n K X Hn HK HX).
  - apply is_matrix_tabulate.
  - now apply (computeMiddle_3 n K X Hn HK HX).
  - apply is_matrix_tabulate.
  - now apply (computeMiddle_4 n K X Hn HK HX).
  - apply is_matrix_tabulate.
Qed.

(** ** Residuals of the wrong length *)

Section WrongLength.

Local Open Scope Qc_scope.

Variables (n K : nat) (X : matrix).
Hypothesis Hn : (0 < n)%nat.
Hypothesis HK : (0 < K)%nat.
Hypothesis HX : is_matrix n K X.

Lemma ncols_T_design : ncols (T X) = n.
Proof. rewrite (T_design n K X Hn HX). now apply ncols_tabulate. Qed.

(** The loop of option 1 stops at the first index [e_hat] does not have. *)
Lemma accumulate_short (e_hat : vector) (k m : nat) (A : nat -> nat -> Qc) :
  (m + k <= n)%nat -> (m <= length e_hat)%nat -> (length e_hat < m + k)%nat ->
  accumulate X e_hat (seq m k) (tabulate K K A) = Raise IndexError.
Proof.
  revert m A. induction k as [|k IH]; intros m A Hm Hlo Hhi; [lia |].
  cbn [seq]. destruct (Nat.eq_dec m (length e_hat)) as [Heq|Hne].
  - cbn [accumulate]. rewrite getitem_ge by lia. reflexivity.
  - rewrite (accumulate_step n K X Hn HK HX) by lia.
    apply IH; lia.
Qed.

Lemma computeMiddle_1_short (XXe2 : matrix) (e_hat : vector) :
  is_matrix K K XXe2 -> (length e_hat < n)%nat ->
  computeMiddle n 1 XXe2 X e_hat = Raise IndexError.
Proof.
  intros HA He. unfold computeMiddle.
  rewrite (tabulate_entry K K XXe2 HA).
  apply accumulate_short; lia.
Qed.

Lemma computeMiddle_3_mismatch (XXe2 : matrix) (e_hat : vector) :
  length e_hat <> n -> computeMiddle n 3 XXe2 X e_hat = Raise ValueError.
Proof.
  intros He. unfold computeMiddle, rmatmul. cbn [diagonal].
  rewrite ncols_T_design, length_square.
  destruct (Nat.eqb_spec n (length e_hat)); [congruence | reflexivity].
Qed.

Lemma computeMiddle_4_mismatch (XXe2 : matrix) (e_hat : vector) :
  length e_hat <> n -> computeMiddle n 4 XXe2 X e_hat = Raise ValueError.
Proof.
  intros He. unfold computeMiddle, matmul.
  rewrite ncols_T_design. unfold nrows, reshape_column. rewrite length_map.
  destruct (Nat.eqb_spec n (length e_hat)); [congruence | reflexivity].
Qed.

End WrongLength.

(** C4, as stated, does not hold: with five observations, option 1 runs
    to the end on six residuals (the sixth is not read) and option 2 runs
    to the end on four ([np.fill_diagonal] recycles them), so a wrong
    length does not always end in an error. *)
Lemma wrong_length_without_error :
  length e6 <> nrows X5 /\
  computeMiddle 5 1 (zeros 2 2) X5 e6 = OK (mat [[5; 10]; [10; 30]]%Q) /\
  length e4 <> nrows X5 /\
  computeMiddle 5 2 (zeros 2 2) X5 e4 = OK (mat [[11; 22]; [22; 60]]%Q).
Proof.
  split; [simpl; lia |]. split; [run |]. split; [simpl; lia | run].
Qed.

(** C4, amended: the cell has no check of its own on the length of the
    residuals; what happens on [X] with [n] rows is decided by the
    operations of each option.  Options 3 and 4 raise [ValueError], the
    shape error of the matrix product, exactly when the length is not [n];
    option 1 raises [IndexError] exactly when there are fewer than [n]
    residuals, and returns when there are [n] or more; option 2 never
    raises. *)
Theorem wrong_length_errors (n K : nat) (XXe2 X : matrix) (residuals : vector) :
  (0 < n)%nat -> (0 < K)%nat -> is_matrix n K X -> is_matrix K K XXe2 ->
  (computeMiddle n 1 XXe2 X residuals = Raise IndexError <-> (length residuals < n)%nat) /\
  ((n <= length residuals)%nat -> exists M, computeMiddle n 1 XXe2 X residuals = OK M) /\
  (exists M, computeMiddle n 2 XXe2 X residuals = OK M) /\
  (computeMiddle n 3 XXe2 X residuals = Raise ValueError <-> length residuals <> n) /\
  (computeMiddle n 4 XXe2 X residuals = Raise ValueError <-> length residuals <> n).
Proof.
  intros Hn HK HX HA.
  assert (H1 : (n <= length residuals)%nat ->
               exists M, computeMiddle n 1 XXe2 X residuals = OK M).
  { intros He. eexists. now apply (computeMiddle_1 n K X Hn HK HX). }
  repeat split.
  - intros Hraise. destruct (Nat.lt_ge_cases (length residuals) n) as [Hlt|Hge];
      [exact Hlt |].
    destruct (H1 Hge) as (M & HM). congruence.
  - now apply (computeMiddle_1_short n K X Hn HK HX).
  - exact H1.
  - eexists. apply (computeMiddle_2_recycled n K X Hn HK HX).
  - intros Hraise Heq.
    rewrite (computeMiddle_3 n K X Hn HK HX) in Hraise by exact Heq. discriminate.
  - now apply (computeMiddle_3_mismatch n K X Hn HK HX).
  - intros Hraise Heq.
    rewrite (computeMiddle_4 n K X Hn HK HX) in Hraise by exact Heq. discriminate.
  - now apply (computeMiddle_4_mismatch n K X Hn HK HX).
Qed.

Lemma wrong_length_errors_witness :
  computeMiddle 5 3 (zeros 2 2) X5 e4 = Raise ValueError <-> length e4 <> 5.
Proof.
  apply (wrong_length_errors 5 2 (zeros 2 2) X5 e4).
  - lia.
  - lia.
  - unfold is_matrix. split; [reflexivity | repeat constructor].
  - apply is_matrix_zeros.
Defined.

(** ** Runs of the benchmark cell *)

(** C1 on a run of the benchmark cell ([n = 3], one replication; [lpm]
    draws the errors [1, -1, 0] and the covariate [0, 1, 2], fits and
    returns the residuals [1/3, -2/3, 1/3]): options 1, 2 and 3 return the
    same matrix and option 4 returns zeros.  Option 4 forms
    [np.matrix(X).T * np.matrix(e_hat)], a matrix product, so that [XXe2]
    is [(X' e_hat) (X' e_hat)']. *)
Theorem option_4_disagrees :
  inputs (benchmark two_streams 3 1 4 (tape []))
  = OK [([[1; 0]; [1; 1]; [1; 2]], [1 # 3; -2 # 3; 1 # 3])]%Q /\
  middles (benchmark two_streams 3 1 1 (tape [])) = OK [[[2 # 3; 2 # 3]; [2 # 3; 8 # 9]]]%Q /\
  middles (benchmark two_streams 3 1 2 (tape [])) = OK [[[2 # 3; 2 # 3]; [2 # 3; 8 # 9]]]%Q /\
  middles (benchmark two_streams 3 1 3 (tape [])) = OK [[[2 # 3; 2 # 3]; [2 # 3; 8 # 9]]]%Q /\
  middles (benchmark two_streams 3 1 4 (tape [])) = OK [[[0; 0]; [0; 0]]]%Q /\
  computeMiddle 3 4 (zeros 2 2) X3 e_hat_0 <> computeMiddle 3 2 (zeros 2 2) X3 e_hat_0 /\
  computeMiddle_realdata 3 2 4 X3 e_hat_0 = computeMiddle 3 2 (zeros 2 2) X3 e_hat_0.
Proof.
  split; [vm_compute; reflexivity |].
  split; [vm_compute; reflexivity |].
  split; [vm_compute; reflexivity |].
  split; [vm_compute; reflexivity |].
  split; [vm_compute; reflexivity |].
  split; [differ | run].
Qed.

(** Options 2, 3 and 4 do not read what [XXe2] holds on entry. *)
Lemma middle_ignores_XXe2 (n opt : nat) (XXe2 XXe2' X : matrix) (e_hat : vector) :
  In opt [2; 3; 4] ->
  computeMiddle n opt XXe2 X e_hat = computeMiddle n opt XXe2' X e_hat.
Proof.
  intros Hopt. simpl in Hopt. destruct Hopt as [<-|[<-|[<-|[]]]]; reflexivity.
Qed.

(** C2 on a run of the benchmark cell ([n = 3], two replications): under
    option 1 the matrix of the second replication is the sum of the
    middle terms of both replications, because [XXe2] is set to zeros
    before the replication loop and not inside it; options 2 and 3 return
    the middle term of the second replication alone. *)
Theorem option_1_carries_over :
  inputs (benchmark two_streams 3 2 1 (tape []))
  = inputs (benchmark two_streams 3 2 2 (tape [])) /\
  middles (benchmark two_streams 3 2 1 (tape []))
  = OK [[[2 # 3; 2 # 3]; [2 # 3; 8 # 9]]; [[5 # 6; 5 # 6]; [5 # 6; 10 # 9]]]%Q /\
  middles (benchmark two_streams 3 2 2 (tape []))
  = OK [[[2 # 3; 2 # 3]; [2 # 3; 8 # 9]]; [[1 # 6; 1 # 6]; [1 # 6; 2 # 9]]]%Q /\
  computeMiddle 3 1 XXe2_0 X3 e_hat_1 <> computeMiddle 3 1 (zeros 2 2) X3 e_hat_1.
Proof.
  split; [vm_compute; reflexivity |].
  split; [vm_compute; reflexivity |].
  split; [vm_compute; reflexivity | differ].
Qed.

Section Scaling.

Local Open Scope Qc_scope.

Lemma nth_scale (c : Qc) (e_hat : vector) (i : nat) :
  nth i (map (Qcmult c) e_hat) 0 = c * nth i e_hat 0.
Proof.
  assert (H0 : (0 : Qc) = c * 0) by ring.
  rewrite H0 at 1. apply (map_nth (Qcmult c)).
Qed.

Lemma weighted_scale (n K : nat) (c : Qc) (e_hat : vector) (X : matrix) :
  weighted n K (squared (map (Qcmult c) e_hat)) X
  = smul (c ^ 2) (weighted n K (squared e_hat) X).
Proof.
  unfold weighted. rewrite smul_tabulate. apply tabulate_ext. intros a b _ _.
  rewrite <- sum_n_scal. apply sum_n_ext. intros i _.
  unfold squared. rewrite nth_scale, !Qc_sq. ring.
Qed.

Lemma score_outer_scale (n K : nat) (c : Qc) (e_hat : vector) (X : matrix) :
  score_outer n K (map (Qcmult c) e_hat) X = smul (c ^ 2) (score_outer n K e_hat X).
Proof.
  unfold score_outer. rewrite smul_tabulate. apply tabulate_ext. intros a b _ _.
  rewrite !(sum_n_ext n (fun i => entry X i _ * nth i (map (Qcmult c) e_hat) 0)
                        (fun i => c * (entry X i _ * nth i e_hat 0)))
    by (intros i _; rewrite nth_scale; ring).
  rewrite !sum_n_scal, Qc_sq. ring.
Qed.

End Scaling.

(** Scaling the residuals by [c] scales the middle term by [c^2] under
    options 2, 3 and 4, and under option 1 entered with zeros. *)
Lemma middle_scaling (n K opt : nat) (c : Qc) (XXe2 X : matrix) (e_hat : vector) :
  valid n K X e_hat -> In opt [1; 2; 3; 4] -> (opt = 1 -> XXe2 = zeros K K) ->
  exists M, computeMiddle n opt XXe2 X e_hat = OK M /\
            computeMiddle n opt XXe2 X (map (Qcmult c) e_hat) = OK (smul (c ^ 2)%Qc M).
Proof.
  intros (Hn & HK & HX & He) Hopt Hzero.
  assert (He' : length (map (Qcmult c) e_hat) = n) by now rewrite length_map.
  simpl in Hopt. destruct Hopt as [<-|[<-|[<-|[<-|[]]]]]; eexists.
  - rewrite (Hzero eq_refl).
    rewrite !(computeMiddle_1_zeros n K X) by (assumption || lia).
    split; [reflexivity |]. f_equal. apply weighted_scale.
  - rewrite !(computeMiddle_2 n K X Hn HK HX) by assumption.
    split; [reflexivity |]. f_equal. apply weighted_scale.
  - rewrite !(computeMiddle_3 n K X Hn HK HX) by assumption.
    split; [reflexivity |]. f_equal. apply weighted_scale.
  - rewrite !(computeMiddle_4 n K X Hn HK HX) by assumption.
    split; [reflexivity |]. f_equal. apply score_outer_scale.
Qed.

(** C8 on the second replication of a run of option 1 ([XXe2] holds the
    middle term of the first replication on entry): doubling the residuals
    gives [[4/3, 4/3], [4/3, 16/9]], which is the carried matrix plus four times
    the middle term, and not four times [[5/6, 5/6], [5/6, 10/9]]. *)
Theorem scaling_with_carried_XXe2 :
  middles (benchmark two_streams 3 1 1 (tape [])) = OK [numbers XXe2_0] /\
  computeMiddle 3 1 XXe2_0 X3 e_hat_1 = OK (mat [[5 # 6; 5 # 6]; [5 # 6; 10 # 9]]%Q) /\
  computeMiddle 3 1 XXe2_0 X3 (map (Qcmult (Q2Qc 2)) e_hat_1)
  = OK (mat [[4 # 3; 4 # 3]; [4 # 3; 16 # 9]]%Q) /\
  computeMiddle 3 1 XXe2_0 X3 (map (Qcmult (Q2Qc 2)) e_hat_1)
  <> OK (smul (Q2Qc 2 ^ 2) (mat [[5 # 6; 5 # 6]; [5 # 6; 10 # 9]]%Q)).
Proof.
  split; [vm_compute; reflexivity |]. split; [run |]. split; [run | differ].
Qed.

(** ** Seeding *)

Section Seeding.

Variable seed : nat -> RandomState.
Variable n : nat.

Lemma body_data (opt : nat) (g : RandomState) (XXe2 : matrix) (iter : nat) (r : replication) :
  body seed n opt g XXe2 iter = OK r -> generated seed n iter = OK (rep_data r).
Proof.
  unfold body, draw, generated.
  destruct (lpm n (seed iter)) as [[[X e_hat] g']|ex]; cbn [bind]; [| discriminate].
  destruct (computeMiddle n opt XXe2 X e_hat) as [M|ex]; cbn [bind]; [| discriminate].
  destruct (sandwich X M) as [S|ex]; cbn [bind]; [| discriminate].
  intros H. apply OK_inj in H. subst r. reflexivity.
Qed.

Lemma replications_data (opt : nat) (range : list nat) :
  forall (g : RandomState) (XXe2 : matrix) (rs : list replication),
    replications seed n opt g XXe2 range = OK rs ->
    traverse (generated seed n) range = OK (map rep_data rs).
Proof.
  induction range as [|iter range IH]; intros g XXe2 rs H; cbn [replications] in H.
  - apply OK_inj in H. subst rs. reflexivity.
  - destruct (body seed n opt g XXe2 iter) as [r|ex] eqn:Hbody; cbn [bind] in H;
      [| discriminate].
    destruct (replications seed n opt (rep_random_state r) (rep_XXe2 r) range)
      as [rs'|ex] eqn:Hrest; cbn [bind] in H; [| discriminate].
    apply OK_inj in H. subst rs.
    cbn [traverse map]. rewrite (body_data _ _ _ _ _ Hbody). cbn [bind].
    rewrite (IH _ _ _ Hrest). reflexivity.
Qed.

End Seeding.

(** C9: the data of replication [iter] are what [lpm(n)] returns right
    after [np.random.seed(iter)].  They do not depend on the random state
    the run starts from, on the option, or on the earlier replications: two
    runs of the replication loop, under any two options and from any two
    random states, work on the same list of data. *)
Theorem benchmark_inputs_seeded (seed : nat -> RandomState) (n Rep opt opt' : nat)
        (g g' : RandomState) (rs rs' : list replication) :
  benchmark seed n Rep opt g = OK rs ->
  benchmark seed n Rep opt' g' = OK rs' ->
  traverse (generated seed n) (seq 0 Rep) = OK (map rep_data rs) /\
  map rep_data rs' = map rep_data rs.
Proof.
  unfold benchmark. intros H H'.
  apply replications_data in H. apply replications_data in H'.
  split; [exact H |].
  rewrite H in H'. apply OK_inj in H'. now symmetry.
Qed.

Lemma benchmark_inputs_seeded_witness :
  traverse (generated two_streams 3) (seq 0 2) = OK (map rep_data run_option_1) /\
  map rep_data run_option_4 = map rep_data run_option_1.
Proof.
  apply (benchmark_inputs_seeded two_streams 3 2 1 4 (tape []) (tape [5; 7]%Q)).
  - vm_compute. reflexivity.
  - vm_compute. reflexivity.
Defined.

(** The whole cell: the four options work on the same data. *)
Lemma options_same_data (seed : nat -> RandomState) (n Rep : nat) (range : list nat) :
  forall (g : RandomState) (rss : list (list replication)),
    options seed n Rep g range = OK rss ->
    Forall (fun rs => traverse (generated seed n) (seq 0 Rep) = OK (map rep_data rs)) rss.
Proof.
  induction range as [|opt range IH]; intros g rss H; cbn [options] in H.
  - apply OK_inj in H. subst rss. constructor.
  - destruct (benchmark seed n Rep opt g) as [rs|ex] eqn:Hrun; cbn [bind] in H;
      [| discriminate].
    destruct (options seed n Rep (last_random_state g rs) range) as [rss'|ex] eqn:Hrest;
      cbn [bind] in H; [| discriminate].
    apply OK_inj in H. subst rss. constructor.
    + unfold benchmark in Hrun. now apply replications_data in Hrun.
    + now apply (IH _ _ Hrest).
Qed.

(** ** The data generator *)

Section Shapes.

Local Open Scope Qc_scope.

Lemma matvec_shape (r c : nat) (a : matrix) (v : vector) :
  (0 < r)%nat -> is_matrix r c a -> length v = c ->
  exists u, matvec a v = OK u /\ length u = r.
Proof.
  intros Hr Ha Hv. rewrite (tabulate_entry r c a Ha).
  rewrite matvec_tabulate by assumption.
  eexists. split; [reflexivity |]. now rewrite length_map, length_seq.
Qed.

Lemma matmul_shape (r m c : nat) (a b : matrix) :
  (0 < r)%nat -> (0 < m)%nat -> is_matrix r m a -> is_matrix m c b ->
  exists p, matmul a b = OK p /\ is_matrix r c p.
Proof.
  intros Hr Hm Ha Hb.
  rewrite (tabulate_entry r m a Ha), (tabulate_entry m c b Hb).
  rewrite matmul_tabulate by assumption.
  eexists. split; [reflexivity | apply is_matrix_tabulate].
Qed.

Lemma broadcast1_shape (h : Qc -> Qc -> Qc) (u v : vector) :
  length u = length v ->
  exists w, broadcast1 h u v = OK w /\ length w = length u.
Proof.
  intros Huv. unfold broadcast1. rewrite <- Huv, broadcast_len_refl. cbn [bind].
  eexists. split; [reflexivity |].
  rewrite !stretch_id by lia. rewrite length_zipWith. lia.
Qed.

(** [np.linalg.inv] on a square matrix: [LinAlgError] when the determinant
    is zero, a matrix of the same shape otherwise. *)
Lemma inv_shape (K : nat) (a : matrix) :
  is_matrix K K a ->
  (det a = 0 /\ inv a = Raise LinAlgError) \/
  (det a <> 0 /\ exists b, inv a = OK b /\ is_matrix K K b).
Proof.
  intros Ha. rewrite (tabulate_entry K K a Ha). unfold inv.
  destruct K as [|K].
  - right. split; [apply Q_apart_0_1 |].
    exists []. split; [reflexivity | split; [reflexivity | constructor]].
  - rewrite is_square_tabulate by lia.
    destruct (Qc_eqb (det (tabulate (S K) (S K) (entry a))) 0) eqn:E.
    + left. apply Qc_eqb_eq in E. now split.
    + right. split.
      * intros H. apply Qc_eqb_eq in H. congruence.
      * rewrite nrows_tabulate. eexists. split; [reflexivity |].
        apply (is_matrix_tabulate (S K) (S K)
                 (fun i j => sign (i + j)
                             * det (del_nth j (map (del_nth i) (tabulate (S K) (S K) (entry a))))
                             / det (tabulate (S K) (S K) (entry a)))).
Qed.

Variables (n : nat) (g : RandomState).
Hypothesis Hn : (0 < n)%nat.

Lemma length_covariate : length (covariate n g) = n.
Proof. unfold covariate, normal. cbn [fst snd]. now rewrite length_map, length_seq. Qed.

Lemma is_matrix_design : is_matrix n 2 (design n g).
Proof.
  unfold design. split.
  - rewrite length_map. apply length_covariate.
  - apply Forall_forall. intros row Hrow. apply in_map_iff in Hrow.
    destruct Hrow as (v & <- & _). reflexivity.
Qed.

Lemma entry_design (i : nat) :
  (i < n)%nat ->
  entry (design n g) i 0 = 1 /\ entry (design n g) i 1 = nth i (covariate n g) 0.
Proof.
  intros Hi. unfold entry, design.
  rewrite (nth_indep _ [] [1; 0]) by (rewrite length_map, length_covariate; exact Hi).
  rewrite (map_nth (fun v => [1; v])). split; reflexivity.
Qed.

Lemma hstack_ones (x : vector) :
  hstack (ones (length x) 1) (reshape_column x) = OK (map (fun v => [1; v]) x).
Proof.
  unfold hstack, ones, nrows, reshape_column.
  rewrite repeat_length, length_map, Nat.eqb_refl. f_equal.
  change (repeat 1 1) with [Q2Qc 1].
  induction x as [|v x IH]; [reflexivity |].
  cbn [length repeat map zipWith app]. now rewrite IH.
Qed.

(** In exact arithmetic [lpm] either stops in the OLS step, on a singular
    [X.T @ X], or returns its design matrix and one residual for each
    observation. *)
Lemma lpm_cases :
  (det (weighted n 2 (fun _ => 1) (design n g)) = 0 /\ lpm n g = Raise LinAlgError) \/
  (det (weighted n 2 (fun _ => 1) (design n g)) <> 0 /\
   exists e_hat g', lpm n g = OK (design n g, e_hat, g') /\ length e_hat = n).
Proof.
  pose proof is_matrix_design as HX.
  unfold lpm. change (normal n g) with (map g (seq 0 n), fun k => g (n + k)%nat).
  cbn iota beta.
  change (normal n (fun k => g (n + k)%nat))
    with (covariate n g, fun k => g (n + (n + k))%nat).
  cbn iota beta.
  pose proof (hstack_ones (covariate n g)) as Hh.
  rewrite length_covariate in Hh. fold (design n g) in Hh.
  rewrite Hh. cbn [bind].
  destruct (matvec_shape n 2 (design n g) [Qcopp 1; 1] Hn HX eq_refl) as (Xb0 & -> & HXb0).
  cbn [bind].
  destruct (broadcast1_shape Qcplus Xb0 (map g (seq 0 n))) as (Ystar & HY & HYlen).
  { now rewrite length_map, length_seq. }
  unfold add1. rewrite HY. cbn [bind].
  set (Y := map (fun v : Qc => if Qle_bool 0 v then 1 else 0) Ystar).
  assert (HYn : length Y = n) by (unfold Y; rewrite length_map; lia).
  rewrite (gram_design n 2 (design n g) Hn ltac:(lia) HX). cbn [bind].
  destruct (inv_shape 2 (weighted n 2 (fun _ => 1) (design n g)))
    as [[Hdet ->]|[Hdet (XX_inv & -> & Hinv)]].
  { apply is_matrix_tabulate. }
  { left. now split. }
  right. split; [exact Hdet |]. cbn [bind].
  destruct (matmul_shape 2 2 n XX_inv (T (design n g))) as (P & -> & HP); try lia.
  { exact Hinv. }
  { rewrite (T_design n 2 (design n g) Hn HX). apply is_matrix_tabulate. }
  cbn [bind].
  destruct (matvec_shape 2 n P Y) as (bhat & -> & Hbhat); try (assumption || lia).
  cbn [bind].
  rewrite (getitem_lt bhat 1 0) by lia. cbn [bind].
  destruct (matvec_shape n 2 (design n g) bhat Hn HX Hbhat) as (Xbhat & -> & HXbhat).
  cbn [bind].
  destruct (broadcast1_shape Qcminus Y Xbhat) as (e_hat & He & Helen); [lia |].
  unfold sub1. rewrite He. cbn [bind].
  exists e_hat, (fun k => g (n + (n + k))%nat). split; [reflexivity | lia].
Qed.

End Shapes.

Section Collinearity.

Local Open Scope Qc_scope.

Lemma Qc_of_nat_S (n : nat) : Qc_of_nat (S n) = Qc_of_nat n + 1.
Proof.
  unfold Qc_of_nat. apply Qc_is_canon. unfold Qcplus, Q2Qc. cbn [this].
  rewrite !Qred_correct.
  rewrite Nat2Z.inj_succ. unfold Z.succ. rewrite inject_Z_plus.
  reflexivity.
Qed.

Lemma Qc_of_nat_pos (n : nat) : (0 < n)%nat -> Qc_of_nat n <> 0.
Proof.
  intros Hn H. unfold Qc_of_nat in H.
  apply Q2Qc_eq_iff in H. unfold Qeq in H. simpl in H. lia.
Qed.

Lemma Qc_square_nonneg (y : Qc) : 0 <= y * y.
Proof.
  destruct (Qclt_le_dec y 0) as [Hneg|Hpos].
  - assert (H : 0 <= - y).
    { apply Qclt_le_weak in Hneg. apply Qcopp_le_compat in Hneg.
      replace (- 0) with 0 in Hneg by ring. exact Hneg. }
    replace (y * y) with (- y * - y) by ring.
    replace 0 with (0 * - y) at 1 by ring.
    now apply Qcmult_le_compat_r.
  - replace 0 with (0 * y) at 1 by ring.
    now apply Qcmult_le_compat_r.
Qed.

Lemma Qc_of_nat_0 : Qc_of_nat 0 = 0.
Proof. reflexivity. Qed.

Lemma sum_n_const (n : nat) (c : Qc) : sum_n n (fun _ => c) = Qc_of_nat n * c.
Proof.
  induction n as [|n IH].
  - rewrite Qc_of_nat_0. unfold sum_n. cbn [seq map sum fold_right]. ring.
  - rewrite sum_n_S, IH, Qc_of_nat_S. ring.
Qed.

Lemma sum_n_nonneg (n : nat) (f : nat -> Qc) :
  (forall i, (i < n)%nat -> 0 <= f i) -> 0 <= sum_n n f.
Proof.
  induction n as [|n IH]; intros Hf.
  - unfold sum_n. simpl. apply Qcle_refl.
  - rewrite sum_n_S. replace 0 with (0 + 0) by ring.
    apply Qcplus_le_compat; [apply IH; intros i Hi; apply Hf; lia | apply Hf; lia].
Qed.

Lemma sum_n_nonneg_zero (n : nat) (f : nat -> Qc) :
  (forall i, (i < n)%nat -> 0 <= f i) -> sum_n n f = 0 ->
  forall i, (i < n)%nat -> f i = 0.
Proof.
  induction n as [|n IH]; intros Hf Hsum i Hi; [lia |].
  rewrite sum_n_S in Hsum.
  assert (Hs : 0 <= sum_n n f) by (apply sum_n_nonneg; intros j Hj; apply Hf; lia).
  assert (Hn : 0 <= f n) by (apply Hf; lia).
  assert (Hs0 : sum_n n f = 0).
  { apply Qcle_antisym; [| exact Hs].
    rewrite <- Hsum. replace (sum_n n f) with (sum_n n f + 0) at 1 by ring.
    apply Qcplus_le_compat; [apply Qcle_refl | exact Hn]. }
  destruct (Nat.eq_dec i n) as [->|Hne].
  - rewrite Hs0 in Hsum. rewrite <- Hsum. ring.
  - apply IH; try assumption; [intros j Hj; apply Hf |]; lia.
Qed.

(** [sum_j (c * x_j - s)^2], expanded. *)
Lemma sum_n_deviations (n : nat) (x : nat -> Qc) (c s : Qc) :
  sum_n n (fun j => (c * x j - s) * (c * x j - s))
  = c * c * sum_n n (fun j => x j * x j) - (1 + 1) * c * s * sum_n n x
    + Qc_of_nat n * (s * s).
Proof.
  induction n as [|n IH].
  - rewrite Qc_of_nat_0. unfold sum_n. cbn [seq map sum fold_right]. ring.
  - rewrite !sum_n_S, IH, Qc_of_nat_S. ring.
Qed.

(** If [n * sum x^2 = (sum x)^2] then the [x_j] are all equal. *)
Lemma equality_case (n : nat) (x : nat -> Qc) :
  (0 < n)%nat ->
  Qc_of_nat n * sum_n n (fun j => x j * x j) - sum_n n x * sum_n n x = 0 ->
  forall i j, (i < n)%nat -> (j < n)%nat -> x i = x j.
Proof.
  intros Hn Hdet.
  pose proof (Qc_of_nat_pos n Hn) as Hn0.
  remember (Qc_of_nat n) as c eqn:Hc. remember (sum_n n x) as s eqn:Hs.
  assert (Hsum : sum_n n (fun j => (c * x j - s) * (c * x j - s)) = 0).
  { rewrite sum_n_deviations, <- Hc, <- Hs.
    transitivity (c * (c * sum_n n (fun j => x j * x j) - s * s)); [ring |].
    rewrite Hdet. ring. }
  assert (Heach : forall j, (j < n)%nat -> c * x j = s).
  { intros j Hj.
    pose proof (sum_n_nonneg_zero n _ (fun k _ => Qc_square_nonneg (c * x k - s)) Hsum j Hj)
      as Hsq.
    cbv beta in Hsq.
    apply Qcmult_integral in Hsq.
    assert (H0 : c * x j - s = 0) by (destruct Hsq; assumption).
    rewrite <- (Qcplus_0_l s), <- H0. ring. }
  intros i j Hi Hj.
  apply (Qcmult_integral_l c (x i - x j)) in Hn0.
  - rewrite <- (Qcplus_0_l (x j)), <- Hn0. ring.
  - replace (c * (x i - x j)) with (c * x i - c * x j) by ring.
    rewrite (Heach i Hi), (Heach j Hj). ring.
Qed.

Lemma det_design (n : nat) (g : RandomState) :
  (0 < n)%nat ->
  det (weighted n 2 (fun _ => 1) (design n g))
  = Qc_of_nat n * sum_n n (fun j => nth j (covariate n g) 0 * nth j (covariate n g) 0)
    - sum_n n (fun j => nth j (covariate n g) 0) * sum_n n (fun j => nth j (covariate n g) 0).
Proof.
  intros Hn. unfold weighted. rewrite det_tabulate_2.
  rewrite (sum_n_ext n (fun i => 1 * (entry (design n g) i 0 * entry (design n g) i 0))
                       (fun _ => 1)).
  2:{ intros i Hi. destruct (entry_design n g i Hi) as [-> _]. ring. }
  rewrite (sum_n_ext n (fun i => 1 * (entry (design n g) i 1 * entry (design n g) i 1))
                       (fun j => nth j (covariate n g) 0 * nth j (covariate n g) 0)).
  2:{ intros i Hi. destruct (entry_design n g i Hi) as [_ ->]. ring. }
  rewrite (sum_n_ext n (fun i => 1 * (entry (design n g) i 0 * entry (design n g) i 1))
                       (fun j => nth j (covariate n g) 0)).
  2:{ intros i Hi. destruct (entry_design n g i Hi) as [-> ->]. ring. }
  rewrite (sum_n_ext n (fun i => 1 * (entry (design n g) i 1 * entry (design n g) i 0))
                       (fun j => nth j (covariate n g) 0)).
  2:{ intros i Hi. destruct (entry_design n g i Hi) as [-> ->]. ring. }
  rewrite sum_n_const. ring.
Qed.

(** [X.T @ X] of the design matrix is singular exactly when the covariate
    takes the same value in every observation. *)
Lemma design_singular_iff (n : nat) (g : RandomState) :
  (0 < n)%nat ->
  det (weighted n 2 (fun _ => 1) (design n g)) = 0 <->
  (forall i j, (i < n)%nat -> (j < n)%nat ->
               nth i (covariate n g) 0 = nth j (covariate n g) 0).
Proof.
  intros Hn. rewrite det_design by exact Hn. split.
  - intros Hdet. now apply (equality_case n (fun j => nth j (covariate n g) 0)).
  - intros Hconst.
    rewrite (sum_n_ext n (fun j => nth j (covariate n g) 0 * nth j (covariate n g) 0)
                         (fun _ => nth 0 (covariate n g) 0 * nth 0 (covariate n g) 0))
      by (intros j Hj; now rewrite (Hconst j 0%nat Hj Hn)).
    rewrite (sum_n_ext n (fun j => nth j (covariate n g) 0)
                         (fun _ => nth 0 (covariate n g) 0))
      by (intros j Hj; now rewrite (Hconst j 0%nat Hj Hn)).
    rewrite !sum_n_const. ring.
Qed.

End Collinearity.

(** C10, as stated, does not hold: with one observation and the covariate
    draw 1/2, [X.T @ X] is [[1, 1/2], [1/2, 1/4]]; its second pivot is
    exactly zero (in binary64 as well, where every operation on these
    numbers is exact), the OLS step raises and nothing is returned. *)
Lemma lpm_1_raises : lpm 1 (tape [0; 1 # 2]%Q) = Raise LinAlgError.
Proof. vm_compute. reflexivity. Qed.

(** C10, amended: for [n >= 1], whatever the random state, [lpm(n)] has
    two outcomes.  Either its OLS step stops with the [LinAlgError] of
    [np.linalg.inv(X.T @ X)], which it calls without a guard, and nothing
    is returned; or it returns a design matrix with [n] rows and two
    columns, the first of them all ones, and [n] residuals. *)
Theorem lpm_shapes (n : nat) (g : RandomState) :
  (1 <= n)%nat ->
  (exists XtX,
     matmul (T (design n g)) (design n g) = OK XtX /\
     inv XtX = Raise LinAlgError /\
     lpm n g = Raise LinAlgError) \/
  (exists X e_hat g',
     lpm n g = OK (X, e_hat, g') /\
     nrows X = n /\
     Forall (fun row => length row = 2 /\ nth 0 row 0%Qc = 1%Qc) X /\
     length e_hat = n).
Proof.
  intros Hn.
  pose proof (is_matrix_design n g) as HX.
  destruct (lpm_cases n g Hn) as [[Hdet Hraise]|[_ (e_hat & g' & Hlpm & He)]].
  - left. exists (weighted n 2 (fun _ => 1%Qc) (design n g)).
    split; [apply (gram_design n 2 (design n g)); (assumption || lia) |].
    split; [| exact Hraise].
    destruct (inv_shape 2 (weighted n 2 (fun _ => 1%Qc) (design n g)))
      as [[_ H]|[H _]]; [apply is_matrix_tabulate | exact H | contradiction].
  - right. exists (design n g), e_hat, g'. split; [exact Hlpm |].
    split; [apply HX |]. split; [| exact He].
    unfold design. apply Forall_forall. intros row Hrow.
    apply in_map_iff in Hrow. destruct Hrow as (v & <- & _). split; reflexivity.
Qed.

Lemma lpm_shapes_witness :
  (exists XtX,
     matmul (T (design 3 (two_streams 0))) (design 3 (two_streams 0)) = OK XtX /\
     inv XtX = Raise LinAlgError /\
     lpm 3 (two_streams 0) = Raise LinAlgError) \/
  (exists X e_hat g',
     lpm 3 (two_streams 0) = OK (X, e_hat, g') /\
     nrows X = 3 /\
     Forall (fun row => length row = 2 /\ nth 0 row 0%Qc = 1%Qc) X /\
     length e_hat = 3).
Proof.
  apply (lpm_shapes 3 (two_streams 0)). lia.
Defined.

(** ** The residuals of [lpm] and option 4 *)

Section Orthogonality.

Local Open Scope Qc_scope.

Lemma sum_n_2 (f : nat -> Qc) : sum_n 2 f = f 0%nat + f 1%nat.
Proof. unfold sum_n. cbn [seq map sum fold_right]. ring. Qed.

Lemma broadcast1_same_length (h : Qc -> Qc -> Qc) (n : nat) (u v : vector) :
  length u = n -> length v = n ->
  broadcast1 h u v = OK (map (fun i => h (nth i u 0) (nth i v 0)) (seq 0 n)).
Proof.
  intros Hu Hv. unfold broadcast1. rewrite Hu, Hv, broadcast_len_refl. cbn [bind].
  rewrite !stretch_id by assumption. f_equal.
  rewrite <- (map_seq_nth u 0) at 1. rewrite <- (map_seq_nth v 0) at 1.
  rewrite Hu, Hv. apply zipWith_map_seq.
Qed.

Variables (n : nat) (g : RandomState).
Hypothesis Hn : (0 < n)%nat.

Let X : matrix := design n g.
Let G : matrix := weighted n 2 (fun _ => 1) X.

(** The value [lpm] returns: the residuals of the regression of the outcome
    [Y] on [X], with coefficients [inv(X.T @ X) @ X.T @ Y]. *)
Lemma lpm_value :
  det G <> 0 ->
  exists (Y : vector) (B : matrix) (g' : RandomState),
    length Y = n /\ is_matrix 2 2 B /\ matmul G B = OK (identity 2) /\
    lpm n g
    = OK (X,
          map (fun i =>
                 nth i Y 0
                 - sum_n 2 (fun a =>
                     entry X i a
                     * sum_n n (fun k => sum_n 2 (fun c => entry B a c * entry X k c)
                                         * nth k Y 0)))
              (seq 0 n),
          g').
Proof.
  intros Hdet.
  pose proof (is_matrix_design n g) as HX. fold X in HX.
  unfold lpm. change (normal n g) with (map g (seq 0 n), fun k => g (n + k)%nat).
  cbn iota beta.
  change (normal n (fun k => g (n + k)%nat))
    with (covariate n g, fun k => g (n + (n + k))%nat).
  cbn iota beta.
  pose proof (hstack_ones (covariate n g)) as Hh.
  rewrite length_covariate in Hh. fold (design n g) in Hh. fold X in Hh.
  rewrite Hh. cbn [bind].
  destruct (matvec_shape n 2 X [Qcopp 1; 1] Hn HX eq_refl) as (Xb0 & -> & HXb0).
  cbn [bind].
  destruct (broadcast1_shape Qcplus Xb0 (map g (seq 0 n))) as (Ystar & HY & HYlen).
  { now rewrite length_map, length_seq. }
  unfold add1. rewrite HY. cbn [bind].
  set (Y := map (fun v : Qc => if Qle_bool 0 v then 1 else 0) Ystar).
  assert (HYn : length Y = n) by (unfold Y; rewrite length_map; lia).
  rewrite (gram_design n 2 X Hn ltac:(lia) HX). fold G. cbn [bind].
  destruct (inv_2x2 G) as (B & -> & HB & HGB & _).
  { apply is_matrix_tabulate. }
  { exact Hdet. }
  cbn [bind].
  exists Y, B, (fun k => g (n + (n + k))%nat).
  split; [exact HYn |]. split; [exact HB |]. split; [exact HGB |].
  rewrite (tabulate_entry 2 2 B HB) at 1.
  rewrite (T_design n 2 X Hn HX).
  rewrite matmul_tabulate by lia. cbn [bind].
  rewrite matvec_tabulate by (lia || exact HYn). cbn [bind].
  rewrite (getitem_lt _ 1 0) by (rewrite length_map, length_seq; lia). cbn [bind].
  rewrite (tabulate_entry n 2 X HX) at 1.
  rewrite matvec_tabulate by (try lia; now rewrite length_map, length_seq).
  cbn [bind]. unfold sub1.
  rewrite (broadcast1_same_length Qcminus n)
    by (try exact HYn; now rewrite length_map, length_seq).
  cbn [bind]. f_equal. f_equal. f_equal.
  apply map_seq_ext. intros i Hi.
  rewrite (nth_map_seq _ n i 0) by exact Hi.
  apply (f_equal (Qcminus (nth i Y 0))). apply sum_n_ext. intros a Ha.
  now rewrite (nth_map_seq _ 2 a 0) by exact Ha.
Qed.

(** The normal equations: the residuals [lpm] returns are orthogonal to
    both columns of [X]. *)
Lemma lpm_orthogonal (e_hat : vector) (g' : RandomState) (b : nat) :
  lpm n g = OK (X, e_hat, g') -> (b < 2)%nat ->
  sum_n n (fun i => entry X i b * nth i e_hat 0) = 0.
Proof.
  intros Hlpm Hb.
  destruct (lpm_cases n g Hn) as [[_ H]|[Hdet _]]; [congruence |].
  fold X in Hdet. fold G in Hdet.
  destruct (lpm_value Hdet) as (Y & B & g'' & HY & HB & HGB & Hval).
  rewrite Hval in Hlpm. apply OK_inj in Hlpm.
  apply (f_equal (fun p => snd (fst p))) in Hlpm. cbn [fst snd] in Hlpm. subst e_hat.
  (* the products of [G] and [B] *)
  unfold G, weighted in HGB. rewrite (tabulate_entry 2 2 B HB) in HGB.
  rewrite matmul_tabulate in HGB by lia. apply OK_inj in HGB.
  assert (HI : forall p q, (p < 2)%nat -> (q < 2)%nat ->
             sum_n 2 (fun k => sum_n n (fun i => 1 * (entry X i p * entry X i k))
                               * entry B k q)
             = if p =? q then 1 else 0).
  { intros p q Hp Hq.
    pose proof (f_equal (fun m => entry m p q) HGB) as H. cbv beta in H.
    unfold identity in H. now rewrite !entry_tabulate in H by assumption. }
  set (v := fun c => sum_n n (fun k => entry X k c * nth k Y 0)).
  set (beta := fun a => entry B a 0 * v 0%nat + entry B a 1 * v 1%nat).
  assert (Hbeta : forall a,
             sum_n n (fun k => sum_n 2 (fun c => entry B a c * entry X k c) * nth k Y 0)
             = beta a).
  { intros a. unfold beta, v. rewrite <- !sum_n_scal, <- sum_n_plus.
    apply sum_n_ext. intros k _. rewrite sum_n_2. ring. }
  rewrite (sum_n_ext n _
             (fun i => entry X i b * nth i Y 0
                       + (- beta 0%nat * (entry X i b * entry X i 0)
                          + - beta 1%nat * (entry X i b * entry X i 1)))).
  2:{ intros i Hi. rewrite (nth_map_seq _ n i 0) by exact Hi.
      rewrite sum_n_2, !Hbeta. ring. }
  rewrite !sum_n_plus, !sum_n_scal. fold (v b).
  pose proof (HI b 0%nat Hb ltac:(lia)) as H0.
  pose proof (HI b 1%nat Hb ltac:(lia)) as H1.
  rewrite sum_n_2, !sum_n_scal in H0, H1.
  set (Gb0 := sum_n n (fun i => entry X i b * entry X i 0)) in *.
  set (Gb1 := sum_n n (fun i => entry X i b * entry X i 1)) in *.
  assert (E0 : Gb0 * entry B 0 0 + Gb1 * entry B 1 0 = if b =? 0 then 1 else 0)
    by (rewrite <- H0; ring).
  assert (E1 : Gb0 * entry B 0 1 + Gb1 * entry B 1 1 = if b =? 1 then 1 else 0)
    by (rewrite <- H1; ring).
  unfold beta.
  transitivity (v b - ((Gb0 * entry B 0 0 + Gb1 * entry B 1 0) * v 0%nat
                       + (Gb0 * entry B 0 1 + Gb1 * entry B 1 1) * v 1%nat));
    [ring |].
  rewrite E0, E1.
  destruct b as [|[|b]]; [cbn [Nat.eqb]; ring | cbn [Nat.eqb]; ring | lia].
Qed.

(** On the data of the benchmark option 4 returns the zero matrix. *)
Lemma option_4_zero_on_lpm (XXe2 : matrix) (e_hat : vector) (g' : RandomState) :
  lpm n g = OK (X, e_hat, g') -> computeMiddle n 4 XXe2 X e_hat = OK (zeros 2 2).
Proof.
  intros Hlpm.
  pose proof (is_matrix_design n g) as HX. fold X in HX.
  assert (He : length e_hat = n).
  { destruct (lpm_cases n g Hn) as [[_ H]|[_ (e' & g'' & H & He')]]; [congruence |].
    fold X in H. rewrite H in Hlpm. apply OK_inj in Hlpm.
    apply (f_equal (fun p => snd (fst p))) in Hlpm. cbn [fst snd] in Hlpm. now subst. }
  rewrite (computeMiddle_4 n 2 X Hn ltac:(lia) HX) by exact He. f_equal.
  rewrite zeros_tabulate. unfold score_outer. apply tabulate_ext. intros a b Ha Hb.
  rewrite (lpm_orthogonal e_hat g' a Hlpm Ha). ring.
Qed.

End Orthogonality.

(** ** The inverse step *)

(** C5, as stated, does not hold: three observations with the covariate
    0.7 give an [X.T @ X] that has no inverse, yet no pivot of its LU
    factorisation in binary64 is exactly zero, so that [np.linalg.inv]
    and with it the sandwich step return (numbers of the order of 1e15)
    instead of raising. *)
Lemma singular_without_error :
  (exists XtX,
     matmul (T (binary64.rationals binary64.X_07)) (binary64.rationals binary64.X_07)
     = OK XtX /\
     det XtX = 0%Qc /\
     forall B, is_matrix 2 2 B -> matmul XtX B <> OK (identity 2)) /\
  (exists sig_B, binary64.computeSandwich 3 binary64.X_07 binary64.e_121 = OK sig_B).
Proof.
  split.
  - assert (HX : is_matrix 3 2 (binary64.rationals binary64.X_07))
      by (split; [reflexivity | repeat constructor]).
    assert (Hdet : det (weighted 3 2 (fun _ => 1%Qc) (binary64.rationals binary64.X_07))
                   = 0%Qc) by (apply Qc_is_canon; vm_compute; reflexivity).
    exists (weighted 3 2 (fun _ => 1%Qc) (binary64.rationals binary64.X_07)).
    split; [apply (gram_design 3 2); (assumption || lia) |].
    split; [exact Hdet |].
    intros B HB. apply singular_2x2_no_inverse;
      [apply is_matrix_tabulate | exact HB | exact Hdet].
  - eexists. vm_compute. reflexivity.
Qed.

Section Pivots.

Import PrimFloat.
Local Open Scope float_scope.

(** The second pivot of that factorisation is not zero, whether the
    multiplier is formed with the reciprocal of the first pivot or by
    division. *)
Lemma second_pivot_not_zero :
  let G := binary64.gram binary64.X_07 in
  (binary64.a22 G - binary64.a21 G * (1 / binary64.a11 G) * binary64.a12 G =? 0) = false /\
  (binary64.a22 G - binary64.a21 G / binary64.a11 G * binary64.a12 G =? 0) = false.
Proof. split; vm_compute; reflexivity. Qed.

End Pivots.

(** Where a pivot is exactly zero the binary64 code raises as the exact
    one does: two identical columns of ones, a column of zeros, and the
    single observation [(1, 1/2)]. *)
Lemma zero_pivots_raise :
  binary64.computeSandwich 3 binary64.X_identical binary64.e_121 = Raise LinAlgError /\
  binary64.computeSandwich 3 binary64.X_zero_column binary64.e_121 = Raise LinAlgError /\
  binary64.inv (binary64.gram binary64.X_half) = Raise LinAlgError.
Proof. repeat split; vm_compute; reflexivity. Qed.

(** C5, amended: [computeSandwich] has no check of its own.  On valid
    input the middle term is computed without error under each option, and
    [computeSandwich] fails exactly when [np.linalg.inv(X.T @ X)] raises
    [LinAlgError]: the error is the inverse step's, and it is the only
    one. *)
Theorem sandwich_fails_in_inverse (n K opt : nat) (XXe2 X XtX : matrix)
        (residuals : vector) :
  valid n K X residuals -> In opt [1; 2; 3; 4] -> is_matrix K K XXe2 ->
  matmul (T X) X = OK XtX ->
  (exists M, computeMiddle n opt XXe2 X residuals = OK M) /\
  (computeSandwich n opt XXe2 X residuals = Raise LinAlgError <->
   inv XtX = Raise LinAlgError) /\
  (forall ex, computeSandwich n opt XXe2 X residuals = Raise ex -> ex = LinAlgError).
Proof.
  intros Hv Hopt HA Hgram.
  destruct (middle_returns n K opt XXe2 X residuals Hv Hopt HA) as (M & HM & HMs).
  destruct Hv as (Hn & HK & HX & He).
  split; [now exists M |].
  unfold computeSandwich, sandwich. rewrite HM, Hgram. cbn [bind].
  assert (HG : is_matrix K K XtX).
  { rewrite (gram_design n K X Hn HK HX) in Hgram. apply OK_inj in Hgram.
    subst XtX. apply is_matrix_tabulate. }
  destruct (inv_shape K XtX HG) as [[_ Hinv]|[_ (B & Hinv & HB)]]; rewrite Hinv; cbn [bind].
  - split; [tauto |]. intros ex Hex. congruence.
  - destruct (matmul_shape K K K B M HK HK HB HMs) as (P & -> & HP). cbn [bind].
    destruct (matmul_shape K K K P B HK HK HP HB) as (S & -> & _).
    split; [split; discriminate |]. intros ex Hex. discriminate.
Qed.

Lemma sandwich_fails_in_inverse_witness :
  computeSandwich 3 4 (zeros 2 2) X3_collinear e3 = Raise LinAlgError <->
  inv (mat [[3; 3]; [3; 3]]%Q) = Raise LinAlgError.
Proof.
  apply (sandwich_fails_in_inverse 3 2 4 (zeros 2 2) X3_collinear
           (mat [[3; 3]; [3; 3]]%Q) e3).
  - unfold valid, is_matrix. repeat split; try lia. repeat constructor.
  - simpl. tauto.
  - apply is_matrix_zeros.
  - run.
Defined.

(** ** The matrices of a run *)

(** In exact arithmetic, with two covariates and an invertible [X.T @ X]
    the sandwich step returns a 2 by 2 matrix, whatever 2 by 2 matrix the
    middle term is. *)
Lemma sandwich_returns (n : nat) (X M : matrix) :
  (0 < n)%nat -> is_matrix n 2 X -> is_matrix 2 2 M ->
  det (weighted n 2 (fun _ => 1%Qc) X) <> 0%Qc ->
  exists S, sandwich X M = OK S /\ is_matrix 2 2 S.
Proof.
  intros Hn HX HM Hdet.
  rewrite (sandwich_gram n 2 X Hn ltac:(lia) HX).
  destruct (inv_2x2 (weighted n 2 (fun _ => 1%Qc) X)) as (B & -> & HB & _).
  { apply is_matrix_tabulate. }
  { exact Hdet. }
  cbn [bind].
  destruct (matmul_shape 2 2 2 B M) as (P & -> & HP); try (assumption || lia).
  cbn [bind].
  now apply (matmul_shape 2 2 2 P B); try lia.
Qed.

(** What [lpm] returns is valid input for the options. *)
Lemma lpm_valid (n : nat) (g g' : RandomState) (X : matrix) (e_hat : vector) :
  (0 < n)%nat -> lpm n g = OK (X, e_hat, g') -> valid n 2 X e_hat.
Proof.
  intros Hn Hlpm.
  destruct (lpm_cases n g Hn) as [[_ H]|[_ (e' & g'' & H & He')]]; [congruence |].
  rewrite H in Hlpm. apply OK_inj in Hlpm.
  pose proof (f_equal (fun p => fst (fst p)) Hlpm) as HX.
  pose proof (f_equal (fun p => snd (fst p)) Hlpm) as He.
  cbn [fst snd] in HX, He. subst X e_hat.
  unfold valid. split; [lia |]. split; [lia |].
  split; [apply is_matrix_design | exact He'].
Qed.

(** In a run of the replication loop [XXe2] is a symmetric 2 by 2 matrix
    after every pass, as it is on entry. *)
Lemma replications_symmetric (seed : nat -> RandomState) (n opt : nat) (range : list nat) :
  (0 < n)%nat -> In opt [1; 2; 3; 4] ->
  forall (g : RandomState) (XXe2 : matrix) (rs : list replication),
    is_matrix 2 2 XXe2 -> T XXe2 = XXe2 ->
    replications seed n opt g XXe2 range = OK rs ->
    Forall (fun p => is_matrix 2 2 (rep_XXe2 p) /\ T (rep_XXe2 p) = rep_XXe2 p) rs.
Proof.
  intros Hn Hopt.
  induction range as [|iter range IH]; intros g XXe2 rs HA Hsym H; cbn [replications] in H.
  - apply OK_inj in H. subst rs. constructor.
  - destruct (body seed n opt g XXe2 iter) as [p|ex] eqn:Hbody; cbn [bind] in H;
      [| discriminate].
    destruct (replications seed n opt (rep_random_state p) (rep_XXe2 p) range)
      as [rs'|ex] eqn:Hrest; cbn [bind] in H; [| discriminate].
    apply OK_inj in H. subst rs.
    assert (Hp : is_matrix 2 2 (rep_XXe2 p) /\ T (rep_XXe2 p) = rep_XXe2 p).
    { unfold body, draw in Hbody.
      destruct (lpm n (seed iter)) as [[[X e_hat] g']|ex] eqn:Hlpm; cbn [bind] in Hbody;
        [| discriminate].
      pose proof (lpm_valid n (seed iter) g' X e_hat Hn Hlpm) as Hv.
      destruct (middle_keeps_symmetry n 2 opt XXe2 X e_hat Hv Hopt HA Hsym)
        as (M & HM & HMs & HMt).
      rewrite HM in Hbody. cbn [bind] in Hbody.
      destruct (sandwich X M) as [S|ex]; cbn [bind] in Hbody; [| discriminate].
      apply OK_inj in Hbody. subst p. now split. }
    constructor; [exact Hp |].
    destruct Hp as [Hp1 Hp2]. now apply (IH _ _ _ Hp1 Hp2 Hrest).
Qed.

Lemma benchmark_symmetric (seed : nat -> RandomState) (n Rep opt : nat)
      (g : RandomState) (rs : list replication) :
  (0 < n)%nat -> In opt [1; 2; 3; 4] ->
  benchmark seed n Rep opt g = OK rs ->
  Forall (fun p => is_matrix 2 2 (rep_XXe2 p) /\ T (rep_XXe2 p) = rep_XXe2 p) rs.
Proof.
  intros Hn Hopt H. unfold benchmark in H.
  apply (replications_symmetric seed n opt (seq 0 Rep) Hn Hopt g (zeros 2 2) rs);
    [apply is_matrix_zeros | reflexivity | exact H].
Qed.

(** ** More on the data generator *)

(** What [lpm] returns besides the residuals: the design matrix built from
    the draws [n .. 2n - 1], and the random state that starts at draw [2n]. *)
Lemma lpm_design_state (n : nat) (g g' : RandomState) (X : matrix) (e_hat : vector) :
  lpm n g = OK (X, e_hat, g') ->
  X = design n g /\ g' = snd (normal n (snd (normal n g))).
Proof.
  unfold lpm.
  change (normal n g) with (map g (seq 0 n), fun k => g (n + k)).
  cbn iota beta.
  change (normal n (fun k => g (n + k)))
    with (covariate n g, fun k => g (n + (n + k))).
  cbn iota beta.
  pose proof (hstack_ones (covariate n g)) as Hh.
  rewrite length_covariate in Hh. fold (design n g) in Hh.
  rewrite Hh. cbn [bind].
  destruct (matvec (design n g) [Qcopp 1; 1%Qc]) as [Xb0|]; cbn [bind]; [| discriminate].
  destruct (add1 Xb0 (map g (seq 0 n))) as [Ystar|]; cbn [bind]; [| discriminate].
  destruct (matmul (T (design n g)) (design n g)) as [XtX|]; cbn [bind]; [| discriminate].
  destruct (inv XtX) as [XX_inv|]; cbn [bind]; [| discriminate].
  destruct (matmul XX_inv (T (design n g))) as [P|]; cbn [bind]; [| discriminate].
  destruct (matvec P _) as [bhat|]; cbn [bind]; [| discriminate].
  destruct (getitem bhat 1) as [bhat2|]; cbn [bind]; [| discriminate].
  destruct (matvec (design n g) bhat) as [Xbhat|]; cbn [bind]; [| discriminate].
  destruct (sub1 _ Xbhat) as [e|]; cbn [bind]; [| discriminate].
  intros H. apply OK_inj in H.
  pose proof (f_equal (fun p => fst (fst p)) H) as HX.
  pose proof (f_equal snd H) as Hg.
  cbn [fst snd] in HX, Hg. now subst.
Qed.

Section MoreOnLpm.

Local Open Scope Qc_scope.

Lemma map_seq_from {A : Type} (f : nat -> A) (s m : nat) :
  map f (seq s m) = map (fun k => f (s + k)%nat) (seq 0 m).
Proof.
  revert s. induction m as [|m IH]; intros s; [reflexivity |].
  cbn [seq map]. rewrite Nat.add_0_r. f_equal.
  rewrite IH, <- seq_shift, map_map. apply map_ext. intros k.
  now rewrite Nat.add_succ_r.
Qed.

Lemma sum_as_sum_n (v : vector) : sum v = sum_n (length v) (fun i => nth i v 0).
Proof. unfold sum_n. now rewrite map_seq_nth. Qed.

Lemma dot_as_sum_n (u v : vector) (n : nat) :
  length u = n -> length v = n ->
  dot u v = sum_n n (fun i => nth i u 0 * nth i v 0).
Proof.
  intros Hu Hv. rewrite <- (map_seq_nth u 0), <- (map_seq_nth v 0) at 1.
  rewrite Hu, Hv. apply dot_map_seq.
Qed.

Lemma nth_column (j : nat) (a : matrix) (i : nat) :
  nth i (column j a) 0 = entry a i j.
Proof.
  unfold column, entry.
  destruct (Nat.lt_ge_cases i (length a)) as [Hi|Hi].
  - rewrite (nth_indep _ 0 (nth j [] 0)) by now rewrite length_map.
    now rewrite (map_nth (fun r => nth j r 0)).
  - rewrite (nth_overflow (map _ a)) by now rewrite length_map.
    rewrite (nth_overflow a) by exact Hi. now destruct j.
Qed.

End MoreOnLpm.

(** X1: when the covariate draws are not all equal and [lpm] returns, its
    residuals satisfy the normal equations of the regression on an
    intercept and the covariate: they sum to zero and their inner product
    with the covariate column of [X] is zero. *)
Theorem lpm_residuals_orthogonal (n : nat) (g g' : RandomState) (X : matrix)
        (e_hat : vector) :
  (1 <= n)%nat ->
  (exists i j, (i < n)%nat /\ (j < n)%nat /\ g (n + i) <> g (n + j)) ->
  lpm n g = OK (X, e_hat, g') ->
  sum e_hat = 0%Qc /\ dot (column 1 X) e_hat = 0%Qc.
Proof.
  intros Hn _ Hlpm.
  destruct (lpm_valid n g g' X e_hat Hn Hlpm) as (_ & _ & HX & He).
  destruct (lpm_design_state n g g' X e_hat Hlpm) as [-> _].
  split.
  - rewrite sum_as_sum_n, He.
    transitivity (sum_n n (fun i => (entry (design n g) i 0 * nth i e_hat 0)%Qc)).
    + apply sum_n_ext. intros i Hi.
      destruct (entry_design n g i Hi) as [-> _]. ring.
    + apply (lpm_orthogonal n g Hn e_hat g' 0 Hlpm). lia.
  - rewrite (dot_as_sum_n _ _ n); [| unfold column; rewrite length_map; apply HX | exact He].
    transitivity (sum_n n (fun i => (entry (design n g) i 1 * nth i e_hat 0)%Qc)).
    + apply sum_n_ext. intros i Hi. now rewrite nth_column.
    + apply (lpm_orthogonal n g Hn e_hat g' 1 Hlpm). lia.
Qed.

Lemma lpm_residuals_orthogonal_witness :
  sum e_hat_0 = 0%Qc /\ dot (column 1 X3) e_hat_0 = 0%Qc.
Proof.
  apply (lpm_residuals_orthogonal 3 (two_streams 0) (fun k => two_streams 0 (3 + (3 + k)))).
  - lia.
  - exists 0, 1. split; [lia |]. split; [lia |].
    intros H. apply (f_equal this) in H. vm_compute in H. discriminate H.
  - vm_compute. reflexivity.
Defined.

(** X2: when [lpm(n)] returns, the first column of the design matrix is
    all ones, its covariate column is made of the draws [n .. 2n - 1] of
    the random source, and the random state left behind starts at draw
    [2n]. *)
Theorem lpm_draws (n : nat) (g g' : RandomState) (X : matrix) (e_hat : vector) :
  lpm n g = OK (X, e_hat, g') ->
  X = map (fun v => [1%Qc; v]) (map g (seq n n)) /\
  forall k, g' k = g (2 * n + k).
Proof.
  intros Hlpm. destruct (lpm_design_state n g g' X e_hat Hlpm) as [-> ->].
  split.
  - unfold design, covariate, normal. cbn [fst snd]. now rewrite (map_seq_from g n n).
  - intros k. unfold normal. cbn [fst snd]. f_equal. lia.
Qed.

Lemma lpm_draws_witness :
  X3 = map (fun v => [1%Qc; v]) (map (two_streams 0) (seq 3 3)) /\
  forall k, two_streams 0 (3 + (3 + k)) = two_streams 0 (2 * 3 + k).
Proof.
  apply (lpm_draws 3 (two_streams 0) (fun k => two_streams 0 (3 + (3 + k))) X3 e_hat_0).
  vm_compute. reflexivity.
Defined.

(** ** Option 4 along a run *)

Section ZeroMiddle.

Local Open Scope Qc_scope.

Lemma matmul_zeros_r (r m c : nat) (a : matrix) :
  (0 < r)%nat -> (0 < m)%nat -> is_matrix r m a ->
  matmul a (zeros m c) = OK (zeros r c).
Proof.
  intros Hr Hm Ha. rewrite (tabulate_entry r m a Ha), !zeros_tabulate.
  rewrite matmul_tabulate by assumption. f_equal.
  apply tabulate_ext. intros i j _ _.
  rewrite (sum_n_ext m _ (fun _ => 0)) by (intros; ring). apply sum_n_0.
Qed.

Lemma matmul_zeros_l (r m c : nat) (b : matrix) :
  (0 < r)%nat -> (0 < m)%nat -> is_matrix m c b ->
  matmul (zeros r m) b = OK (zeros r c).
Proof.
  intros Hr Hm Hb. rewrite (tabulate_entry m c b Hb), !zeros_tabulate.
  rewrite matmul_tabulate by assumption. f_equal.
  apply tabulate_ext. intros i j _ _.
  rewrite (sum_n_ext m _ (fun _ => 0)) by (intros; ring). apply sum_n_0.
Qed.

(** A zero middle term gives a zero sandwich. *)
Lemma sandwich_zeros (n : nat) (X S : matrix) :
  (0 < n)%nat -> is_matrix n 2 X -> sandwich X (zeros 2 2) = OK S -> S = zeros 2 2.
Proof.
  intros Hn HX. rewrite (sandwich_gram n 2 X Hn ltac:(lia) HX).
  destruct (inv_shape 2 (weighted n 2 (fun _ => 1) X)) as [[_ ->]|[_ (B & -> & HB)]].
  { apply is_matrix_tabulate. }
  { discriminate. }
  cbn [bind]. rewrite (matmul_zeros_r 2 2 2 B) by (lia || exact HB). cbn [bind].
  rewrite (matmul_zeros_l 2 2 2 B) by (lia || exact HB).
  intros H. apply OK_inj in H. now symmetry.
Qed.

End ZeroMiddle.

(** X4: in every completed run of option 4 of the benchmark cell, [XXe2]
    and [sig_B] are the zero matrix after every replication: the residuals
    of [lpm] are orthogonal to the columns of [X], and option 4 computes
    the outer product of [X' e_hat] with itself. *)
Theorem option_4_run_is_zero (seed : nat -> RandomState) (n Rep : nat)
        (g : RandomState) (rs : list replication) :
  1 <= n -> benchmark seed n Rep 4 g = OK rs ->
  Forall (fun p => rep_XXe2 p = zeros 2 2 /\ rep_sig_B p = zeros 2 2) rs.
Proof.
  intros Hn. unfold benchmark.
  generalize (zeros 2 2) at 1. generalize (seq 0 Rep). intros range.
  revert g rs. induction range as [|iter range IH]; intros g rs A H;
    cbn [replications] in H.
  - apply OK_inj in H. subst rs. constructor.
  - destruct (body seed n 4 g A iter) as [p|ex] eqn:Hbody; cbn [bind] in H;
      [| discriminate].
    destruct (replications seed n 4 (rep_random_state p) (rep_XXe2 p) range)
      as [rs'|ex] eqn:Hrest; cbn [bind] in H; [| discriminate].
    apply OK_inj in H. subst rs. constructor; [| now apply (IH _ _ _ Hrest)].
    unfold body, draw in Hbody.
    destruct (lpm n (seed iter)) as [[[X e_hat] g']|ex] eqn:Hlpm; cbn [bind] in Hbody;
      [| discriminate].
    destruct (lpm_design_state n (seed iter) g' X e_hat Hlpm) as [-> _].
    rewrite (option_4_zero_on_lpm n (seed iter) Hn A e_hat g' Hlpm) in Hbody.
    cbn [bind] in Hbody.
    destruct (sandwich (design n (seed iter)) (zeros 2 2)) as [S|ex] eqn:HS;
      cbn [bind] in Hbody; [| discriminate].
    apply (sandwich_zeros n) in HS; [| lia | apply is_matrix_design].
    apply OK_inj in Hbody. subst p S. now split.
Qed.

Lemma option_4_run_is_zero_witness :
  Forall (fun p => rep_XXe2 p = zeros 2 2 /\ rep_sig_B p = zeros 2 2) run_option_4.
Proof.
  apply (option_4_run_is_zero two_streams 3 2 (tape [5; 7]%Q) run_option_4).
  - lia.
  - vm_compute. reflexivity.
Defined.

(** ** Option 1 along a run *)

Section RunningSum.

Local Open Scope Qc_scope.

Lemma zipWith_tabulate (h : Qc -> Qc -> Qc) (r c : nat) (f g : nat -> nat -> Qc) :
  zipWith (zipWith h) (tabulate r c f) (tabulate r c g)
  = tabulate r c (fun i j => h (f i j) (g i j)).
Proof.
  unfold tabulate. rewrite zipWith_map_seq. apply map_ext. intros i.
  apply zipWith_map_seq.
Qed.

(** Option 1 on valid data, as an entrywise sum. *)
Lemma computeMiddle_1_adds (n : nat) (A X : matrix) (e_hat : vector) :
  valid n 2 X e_hat -> is_matrix 2 2 A ->
  computeMiddle n 1 A X e_hat = OK (zipWith (zipWith Qcplus) A (outer_sum 2 X e_hat)).
Proof.
  intros (Hn & HK & HX & He) HA.
  rewrite (computeMiddle_1 n 2 X Hn HK HX) by (assumption || lia). f_equal.
  assert (Hsum : outer_sum 2 X e_hat = weighted n 2 (squared e_hat) X).
  { destruct HX as [Hr Hc]. rewrite <- Hr. apply outer_sum_weighted; [lia | exact Hc]. }
  rewrite Hsum.
  transitivity (zipWith (zipWith Qcplus) (tabulate 2 2 (entry A))
                        (weighted n 2 (squared e_hat) X));
    [| now rewrite <- (tabulate_entry 2 2 A HA)].
  unfold weighted. rewrite zipWith_tabulate.
  apply tabulate_ext. intros a b Ha Hb. now rewrite entry_tabulate.
Qed.

End RunningSum.

(** X5: under option 1 the replication loop never resets [XXe2]: after each
    replication it holds what it held before plus that replication's sum
    [sum_i e_hat[i]^2 * outer(x_i, x_i)], so after the [k]-th replication
    of a run it is the sum over the first [k] data sets. *)
Theorem option_1_running_sum (seed : nat -> RandomState) (n Rep : nat)
        (g : RandomState) (rs : list replication) :
  1 <= n -> benchmark seed n Rep 1 g = OK rs ->
  map rep_XXe2 rs = running_sums (zeros 2 2) (map rep_data rs).
Proof.
  intros Hn. unfold benchmark.
  assert (HA : is_matrix 2 2 (zeros 2 2)) by apply is_matrix_zeros.
  revert HA. generalize (zeros 2 2). generalize (seq 0 Rep). intros range.
  revert g rs. induction range as [|iter range IH]; intros g rs A HA H;
    cbn [replications] in H.
  - apply OK_inj in H. subst rs. reflexivity.
  - destruct (body seed n 1 g A iter) as [p|ex] eqn:Hbody; cbn [bind] in H;
      [| discriminate].
    destruct (replications seed n 1 (rep_random_state p) (rep_XXe2 p) range)
      as [rs'|ex] eqn:Hrest; cbn [bind] in H; [| discriminate].
    apply OK_inj in H. subst rs.
    unfold body, draw in Hbody.
    destruct (lpm n (seed iter)) as [[[X e_hat] g']|ex] eqn:Hlpm; cbn [bind] in Hbody;
      [| discriminate].
    pose proof (lpm_valid n (seed iter) g' X e_hat Hn Hlpm) as Hv.
    rewrite (computeMiddle_1_adds n A X e_hat Hv HA) in Hbody. cbn [bind] in Hbody.
    destruct (sandwich X _) as [S|ex]; cbn [bind] in Hbody; [| discriminate].
    apply OK_inj in Hbody. subst p.
    cbn [map running_sums rep_XXe2 rep_data fst snd] in *.
    f_equal. apply (IH g'); [| exact Hrest].
    destruct Hv as (Hn' & HK & HX & He).
    assert (Hsum : outer_sum 2 X e_hat = weighted n 2 (squared e_hat) X).
    { destruct HX as [Hr Hc]. rewrite <- Hr. apply outer_sum_weighted; [lia | exact Hc]. }
    rewrite Hsum.
    replace A with (tabulate 2 2 (entry A)) by (symmetry; now apply tabulate_entry).
    unfold weighted. rewrite zipWith_tabulate. apply is_matrix_tabulate.
Qed.

Lemma option_1_running_sum_witness :
  map rep_XXe2 run_option_1 = running_sums (zeros 2 2) (map rep_data run_option_1).
Proof.
  apply (option_1_running_sum two_streams 3 2 (tape []) run_option_1).
  - lia.
  - vm_compute. reflexivity.
Defined.

(** ** Symmetry along a run *)

Section SymmetricSandwich.

Local Open Scope Qc_scope.

Lemma inv_2x2_formula (a b c d : Qc) :
  a * d - b * c <> 0 ->
  inv [[a; b]; [c; d]]
  = OK [[d / (a * d - b * c); - b / (a * d - b * c)];
        [- c / (a * d - b * c); a / (a * d - b * c)]].
Proof.
  intros Hd. unfold inv. cbn [is_square forallb nrows length Nat.eqb andb].
  destruct (Qc_eqb (det [[a; b]; [c; d]]) 0) eqn:E.
  { apply Qc_eqb_eq in E. rewrite det_2x2 in E. contradiction. }
  rewrite det_2x2.
  cbn [seq map del_nth firstn skipn app Nat.add].
  unfold det, sum, sign.
  cbn [nrows length det_rec seq map nth fold_right del_nth firstn skipn app Nat.even].
  unfold sum, sign. cbn [fold_right Nat.even].
  entries; field; exact Hd.
Qed.

Lemma T_2x2 (p q r s : Qc) : T [[p; q]; [r; s]] = [[p; r]; [q; s]].
Proof. reflexivity. Qed.

Lemma symmetric_2x2 (M : matrix) :
  is_matrix 2 2 M -> T M = M -> exists p q s, M = [[p; q]; [q; s]].
Proof.
  intros HM Hsym. destruct (is_matrix_2x2 M HM) as (p & q & r & s & ->).
  rewrite T_2x2 in Hsym.
  pose proof (f_equal (fun m => entry m 0 1) Hsym) as H.
  unfold entry in H. cbn [nth] in H.
  exists p, q, s. now rewrite H.
Qed.

(** With a symmetric middle term the sandwich is symmetric. *)
Lemma sandwich_symmetric (n : nat) (X M S : matrix) :
  (0 < n)%nat -> is_matrix n 2 X -> is_matrix 2 2 M -> T M = M ->
  sandwich X M = OK S -> is_matrix 2 2 S /\ T S = S.
Proof.
  intros Hn HX HM Hsym.
  rewrite (sandwich_gram n 2 X Hn ltac:(lia) HX).
  destruct (symmetric_2x2 M HM Hsym) as (p & q & s & ->).
  destruct (symmetric_2x2 (weighted n 2 (fun _ => 1) X)) as (a & b & d & HG).
  { apply is_matrix_tabulate. }
  { apply weighted_symmetric. lia. }
  rewrite HG.
  destruct (Qc_eq_dec (a * d - b * b) 0) as [Hd|Hd].
  - unfold inv. cbn [is_square forallb nrows length Nat.eqb andb].
    rewrite det_2x2. apply Qc_eqb_eq in Hd. rewrite Hd. discriminate.
  - rewrite (inv_2x2_formula a b b d Hd). cbn [bind].
    rewrite matmul_2x2. cbn [bind]. rewrite matmul_2x2.
    intros H. apply OK_inj in H. subst S. split.
    + split; [reflexivity | repeat constructor].
    + rewrite T_2x2. entries; field; exact Hd.
Qed.

End SymmetricSandwich.

(** X6: in every completed run of the benchmark cell, under each option,
    [XXe2] and [sig_B] are symmetric 2 by 2 matrices after every
    replication. *)
Theorem run_matrices_symmetric (seed : nat -> RandomState) (n Rep opt : nat)
        (g : RandomState) (rs : list replication) :
  1 <= n -> In opt [1; 2; 3; 4] ->
  benchmark seed n Rep opt g = OK rs ->
  Forall (fun p => (is_matrix 2 2 (rep_XXe2 p) /\ T (rep_XXe2 p) = rep_XXe2 p) /\
                   (is_matrix 2 2 (rep_sig_B p) /\ T (rep_sig_B p) = rep_sig_B p)) rs.
Proof.
  intros Hn Hopt. unfold benchmark.
  assert (HA : is_matrix 2 2 (zeros 2 2) /\ T (zeros 2 2) = zeros 2 2)
    by (split; [apply is_matrix_zeros | reflexivity]).
  revert HA. generalize (zeros 2 2). generalize (seq 0 Rep). intros range.
  revert g rs. induction range as [|iter range IH]; intros g rs A [HA Hsym] H;
    cbn [replications] in H.
  - apply OK_inj in H. subst rs. constructor.
  - destruct (body seed n opt g A iter) as [p|ex] eqn:Hbody; cbn [bind] in H;
      [| discriminate].
    destruct (replications seed n opt (rep_random_state p) (rep_XXe2 p) range)
      as [rs'|ex] eqn:Hrest; cbn [bind] in H; [| discriminate].
    apply OK_inj in H. subst rs.
    unfold body, draw in Hbody.
    destruct (lpm n (seed iter)) as [[[X e_hat] g']|ex] eqn:Hlpm; cbn [bind] in Hbody;
      [| discriminate].
    pose proof (lpm_valid n (seed iter) g' X e_hat Hn Hlpm) as Hv.
    destruct (middle_keeps_symmetry n 2 opt A X e_hat Hv Hopt HA Hsym)
      as (M & HM & HMs & HMt).
    rewrite HM in Hbody. cbn [bind] in Hbody.
    destruct (sandwich X M) as [S|ex] eqn:HS; cbn [bind] in Hbody; [| discriminate].
    destruct Hv as (_ & _ & HX & _).
    pose proof (sandwich_symmetric n X M S Hn HX HMs HMt HS) as HSs.
    apply OK_inj in Hbody. subst p. cbn [rep_XXe2 rep_random_state] in Hrest.
    constructor; [now split |].
    apply (IH g' rs' M); [now split | exact Hrest].
Qed.

Lemma run_matrices_symmetric_witness :
  Forall (fun p => (is_matrix 2 2 (rep_XXe2 p) /\ T (rep_XXe2 p) = rep_XXe2 p) /\
                   (is_matrix 2 2 (rep_sig_B p) /\ T (rep_sig_B p) = rep_sig_B p))
         run_option_1.
Proof.
  apply (run_matrices_symmetric two_streams 3 2 1 (tape []) run_option_1).
  - lia.
  - simpl. tauto.
  - vm_compute. reflexivity.
Defined.

(** ** What stops a run *)

(** One pass of the replication loop either stops in [lpm] or returns. *)
Lemma body_cases (seed : nat -> RandomState) (n opt iter : nat) (g : RandomState)
      (A : matrix) :
  1 <= n -> In opt [1; 2; 3; 4] -> is_matrix 2 2 A ->
  (lpm n (seed iter) = Raise LinAlgError /\ body seed n opt g A iter = Raise LinAlgError) \/
  (exists p, body seed n opt g A iter = OK p /\ is_matrix 2 2 (rep_XXe2 p)).
Proof.
  intros Hn Hopt HA. unfold body, draw.
  destruct (lpm_cases n (seed iter) Hn) as [[_ Hraise]|[Hdet (e_hat & g' & Hok & He)]].
  - left. rewrite Hraise. now split.
  - right. rewrite Hok. cbn [bind].
    pose proof (lpm_valid n (seed iter) g' _ e_hat Hn Hok) as Hv.
    destruct (middle_returns n 2 opt A _ e_hat Hv Hopt HA) as (M & -> & HM).
    cbn [bind].
    destruct (sandwich_returns n (design n (seed iter)) M Hn (is_matrix_design n _) HM Hdet)
      as (S & -> & _).
    cbn [bind]. eexists. split; [reflexivity | exact HM].
Qed.

(** X8: for [n >= 1] a run of the replication loop either completes all
    [Rep] replications or stops with the [LinAlgError] that [lpm] raises at
    one of them; the options and the inverse of the sandwich step never
    stop a run. *)
Theorem benchmark_stops_only_in_lpm (seed : nat -> RandomState) (n Rep opt : nat)
        (g : RandomState) :
  1 <= n -> In opt [1; 2; 3; 4] ->
  (exists rs, benchmark seed n Rep opt g = OK rs /\ length rs = Rep) \/
  (benchmark seed n Rep opt g = Raise LinAlgError /\
   exists iter, iter < Rep /\ lpm n (seed iter) = Raise LinAlgError).
Proof.
  intros Hn Hopt. unfold benchmark.
  assert (Hgen : forall range g A, is_matrix 2 2 A ->
            (exists rs, replications seed n opt g A range = OK rs /\
                        length rs = length range) \/
            (replications seed n opt g A range = Raise LinAlgError /\
             exists iter, In iter range /\ lpm n (seed iter) = Raise LinAlgError)).
  { induction range as [|iter range IH]; intros g0 A HA; cbn [replications].
    - left. exists []. now split.
    - destruct (body_cases seed n opt iter g0 A Hn Hopt HA)
        as [[Hlpm ->]|(p & -> & Hp)]; cbn [bind].
      + right. split; [reflexivity |]. exists iter. split; [now left | exact Hlpm].
      + destruct (IH (rep_random_state p) (rep_XXe2 p) Hp)
          as [(rs & -> & Hlen)|(-> & iter' & Hin & Hlpm)]; cbn [bind].
        * left. exists (p :: rs). split; [reflexivity |]. cbn [length]. now rewrite Hlen.
        * right. split; [reflexivity |]. exists iter'. split; [now right | exact Hlpm]. }
  destruct (Hgen (seq 0 Rep) g (zeros 2 2) (is_matrix_zeros 2 2))
    as [(rs & Hrs & Hlen)|(Hraise & iter & Hin & Hlpm)].
  - left. exists rs. split; [exact Hrs |]. now rewrite Hlen, length_seq.
  - right. split; [exact Hraise |]. exists iter. split; [| exact Hlpm].
    apply in_seq in Hin. lia.
Qed.

Lemma benchmark_stops_only_in_lpm_witness :
  (exists rs, benchmark two_streams 3 2 2 (tape []) = OK rs /\ length rs = 2) \/
  (benchmark two_streams 3 2 2 (tape []) = Raise LinAlgError /\
   exists iter, iter < 2 /\ lpm 3 (two_streams iter) = Raise LinAlgError).
Proof.
  apply (benchmark_stops_only_in_lpm two_streams 3 2 2 (tape [])).
  - lia.
  - simpl. tauto.
Defined.

(** ** The real-data cell on residuals of the wrong length *)

Section RealDataLengths.

Local Open Scope Qc_scope.

Variables (n K : nat) (X : matrix).
Hypothesis Hn : (2 <= n)%nat.
Hypothesis HK : (1 <= K)%nat.
Hypothesis HX : is_matrix n K X.

(** The loop of option 1 stops at the first index [e_hat] does not have. *)
Lemma accumulate_outer_short (e_hat : vector) (k m : nat) (A : nat -> nat -> Qc) :
  (m + k <= n)%nat -> (m <= length e_hat)%nat -> (length e_hat < m + k)%nat ->
  accumulate_outer X e_hat (seq m k) (tabulate K K A) = Raise IndexError.
Proof.
  revert m A. induction k as [|k IH]; intros m A Hm Hlo Hhi; [lia |].
  cbn [seq accumulate_outer].
  destruct (Nat.eq_dec m (length e_hat)) as [Heq|Hne].
  - rewrite getitem_ge by lia. reflexivity.
  - rewrite (getitem_lt e_hat m 0) by lia. cbn [bind].
    rewrite (getitem_lt X m []) by (destruct HX; lia). cbn [bind].
    rewrite outer_tabulate, (length_row n K X) by (assumption || lia).
    rewrite smul_tabulate, iadd_tabulate. cbn [bind].
    apply IH; lia.
Qed.

(** [X * e_hat[:, np.newaxis]] with a single residual: the residual is
    broadcast along the rows. *)
Lemma multiply_single (e : Qc) :
  multiply X (reshape_column [e]) = OK (tabulate n K (fun i j => entry X i j * e)).
Proof.
  rewrite (tabulate_entry n K X HX) at 1.
  unfold multiply, broadcast2. cbn [reshape_column map].
  rewrite nrows_tabulate. change (nrows [[e]]) with 1%nat.
  rewrite broadcast_len_1. cbn [bind].
  rewrite ncols_tabulate by lia. change (ncols [[e]]) with 1%nat.
  rewrite broadcast_len_1. cbn [bind]. f_equal.
  rewrite stretch_id by apply nrows_tabulate.
  cbn [stretch]. rewrite <- (map_const_seq [e] 0 n).
  unfold tabulate. rewrite zipWith_map_seq. apply map_seq_ext. intros i Hi.
  rewrite stretch_id by now rewrite length_map, length_seq.
  cbn [stretch]. rewrite <- (map_const_seq e 0 K). apply zipWith_map_seq.
Qed.

Lemma computeMiddle_realdata_4_single (e : Qc) :
  computeMiddle_realdata n K 4 X [e] = OK (weighted n K (fun _ => e ^ 2) X).
Proof.
  unfold computeMiddle_realdata. rewrite multiply_single. cbn [bind].
  rewrite T_tabulate, matmul_tabulate by lia. f_equal.
  unfold weighted. apply tabulate_ext. intros a b _ _.
  apply sum_n_ext. intros i Hi. rewrite Qc_sq. ring.
Qed.

Lemma computeMiddle_realdata_4_mismatch (e_hat : vector) :
  length e_hat <> n -> length e_hat <> 1%nat ->
  computeMiddle_realdata n K 4 X e_hat = Raise ValueError.
Proof.
  intros He H1. unfold computeMiddle_realdata, multiply, broadcast2.
  destruct HX as [Hr _]. unfold nrows, reshape_column. rewrite length_map, Hr.
  unfold broadcast_len.
  destruct (Nat.eqb_spec n (length e_hat)) as [Heq|_]; [congruence |].
  destruct (Nat.eqb_spec n 1) as [Heq|_]; [lia |].
  destruct (Nat.eqb_spec (length e_hat) 1) as [Heq|_]; [congruence |].
  reflexivity.
Qed.

Lemma computeMiddle_realdata_3_mismatch (e_hat : vector) :
  length e_hat <> n -> computeMiddle_realdata n K 3 X e_hat = Raise ValueError.
Proof.
  intros He. unfold computeMiddle_realdata, rmatmul. cbn [diagonal].
  rewrite (ncols_T_design n K X), length_square by (assumption || lia).
  destruct (Nat.eqb_spec n (length e_hat)); [congruence | reflexivity].
Qed.

End RealDataLengths.

(** X10: the real-data cell does not check the length of [e_hat] either.
    On [X] with [n >= 2] rows, option 1 raises [IndexError] exactly when
    there are fewer than [n] residuals, option 3 raises [ValueError]
    exactly when their number is not [n], and option 4 raises [ValueError]
    exactly when their number is neither [n] nor 1: a single residual [e]
    is broadcast to every row, and the cell returns [e**2 * X'X]. *)
Theorem realdata_wrong_length (n K : nat) (X : matrix) (e_hat : vector) :
  2 <= n -> 1 <= K -> is_matrix n K X ->
  (computeMiddle_realdata n K 1 X e_hat = Raise IndexError <-> length e_hat < n) /\
  (computeMiddle_realdata n K 3 X e_hat = Raise ValueError <-> length e_hat <> n) /\
  (computeMiddle_realdata n K 4 X e_hat = Raise ValueError <->
     length e_hat <> n /\ length e_hat <> 1) /\
  (forall e, e_hat = [e] ->
     computeMiddle_realdata n K 4 X e_hat = OK (weighted n K (fun _ => (e ^ 2)%Qc) X)).
Proof.
  intros Hn HK HX.
  assert (Hn0 : 0 < n) by lia.
  split; [| split; [| split]].
  - split.
    + intros Hraise. destruct (Nat.lt_ge_cases (length e_hat) n) as [Hlt|Hge];
        [exact Hlt |].
      rewrite (computeMiddle_realdata_1 n K X Hn0 HK HX) in Hraise by exact Hge.
      discriminate.
    + intros Hlt. unfold computeMiddle_realdata. rewrite zeros_tabulate.
      apply (accumulate_outer_short n K X); (assumption || lia).
  - split.
    + intros Hraise Heq.
      rewrite (computeMiddle_realdata_3 n K X Hn0 HK HX) in Hraise by exact Heq.
      discriminate.
    + intros He. apply (computeMiddle_realdata_3_mismatch n K X); (assumption || lia).
  - split.
    + intros Hraise. split.
      * intros Heq.
        rewrite (computeMiddle_realdata_4 n K X Hn0 HK HX) in Hraise by exact Heq.
        discriminate.
      * intros H1. destruct e_hat as [|e [|e' l]]; try discriminate H1.
        rewrite (computeMiddle_realdata_4_single n K X) in Hraise by (assumption || lia).
        discriminate.
    + intros [He H1]. apply (computeMiddle_realdata_4_mismatch n K X); (assumption || lia).
  - intros e ->. apply (computeMiddle_realdata_4_single n K X); (assumption || lia).
Qed.

Lemma realdata_wrong_length_witness :
  computeMiddle_realdata 3 2 4 X3 [Q2Qc 2] = OK (weighted 3 2 (fun _ => (Q2Qc 2 ^ 2)%Qc) X3).
Proof.
  apply (realdata_wrong_length 3 2 X3 [Q2Qc 2]).
  - lia.
  - lia.
  - unfold is_matrix. split; [reflexivity | repeat constructor].
  - reflexivity.
Defined.

(** ** Reordering and scaling in the real-data cell *)

(** X16: in the real-data cell, reordering the observations, rows of [X]
    and entries of [e_hat] together, does not change [XXe2], under each of
    the options 1, 3 and 4. *)
Theorem realdata_reordering (n K opt : nat) (X X' : matrix) (e_hat e_hat' : vector) :
  valid n K X e_hat -> length X' = length e_hat' ->
  Permutation (combine X e_hat) (combine X' e_hat') ->
  In opt [1; 3; 4] ->
  computeMiddle_realdata n K opt X' e_hat' = computeMiddle_realdata n K opt X e_hat.
Proof.
  intros (Hn & HK & HX & He) Hlen Hperm Hopt.
  pose proof (reordered_is_matrix n K X X' e_hat e_hat' HX He Hlen Hperm) as HX'.
  pose proof (reordered_length n K X X' e_hat e_hat' HX He Hlen Hperm) as He'.
  pose proof (reordered_weighted n K X X' e_hat e_hat' HX He Hlen Hperm) as Hw.
  simpl in Hopt. destruct Hopt as [<-|[<-|[<-|[]]]].
  - rewrite (computeMiddle_realdata_1 n K X Hn HK HX),
      (computeMiddle_realdata_1 n K X' Hn HK HX') by lia.
    now rewrite Hw.
  - rewrite (computeMiddle_realdata_3 n K X Hn HK HX),
      (computeMiddle_realdata_3 n K X' Hn HK HX') by assumption.
    now rewrite Hw.
  - rewrite (computeMiddle_realdata_4 n K X Hn HK HX),
      (computeMiddle_realdata_4 n K X' Hn HK HX') by assumption.
    now rewrite Hw.
Qed.

Lemma realdata_reordering_witness :
  computeMiddle_realdata 3 2 4 X3_swapped e3_swapped = computeMiddle_realdata 3 2 4 X3 e3.
Proof.
  apply (realdata_reordering 3 2 4 X3 X3_swapped e3 e3_swapped).
  - apply valid_X3_e3.
  - reflexivity.
  - apply perm_swap.
  - simpl. tauto.
Defined.

(** X17: the real-data cell sets [XXe2] to zeros for each option, so
    multiplying the residuals by [c] multiplies [XXe2] by [c^2] under each
    of the options 1, 3 and 4. *)
Theorem realdata_scaling (n K opt : nat) (c : Qc) (X : matrix) (e_hat : vector) :
  valid n K X e_hat -> In opt [1; 3; 4] ->
  exists M, computeMiddle_realdata n K opt X e_hat = OK M /\
            computeMiddle_realdata n K opt X (map (Qcmult c) e_hat)
            = OK (smul (c ^ 2)%Qc M).
Proof.
  intros (Hn & HK & HX & He) Hopt.
  assert (He' : length (map (Qcmult c) e_hat) = n) by now rewrite length_map.
  exists (weighted n K (squared e_hat) X).
  rewrite <- weighted_scale.
  simpl in Hopt. destruct Hopt as [<-|[<-|[<-|[]]]].
  - split; apply (computeMiddle_realdata_1 n K X Hn HK HX); lia.
  - split; apply (computeMiddle_realdata_3 n K X Hn HK HX); assumption.
  - split; apply (computeMiddle_realdata_4 n K X Hn HK HX); assumption.
Qed.

Lemma realdata_scaling_witness :
  exists M, computeMiddle_realdata 3 2 1 X3 e3 = OK M /\
            computeMiddle_realdata 3 2 1 X3 (map (Qcmult (Q2Qc 2)) e3)
            = OK (smul (Q2Qc 2 ^ 2)%Qc M).
Proof.
  apply (realdata_scaling 3 2 1 (Q2Qc 2) X3 e3).
  - apply valid_X3_e3.
  - simpl. tauto.
Defined.

(** ** Positive semidefiniteness *)

Section Semidefinite.

Local Open Scope Qc_scope.

Lemma quadratic_form_2x2 (p q r s a b : Qc) :
  quadratic_form [[p; q]; [r; s]] [a; b]
  = a * (p * a + q * b) + b * (r * a + s * b).
Proof.
  unfold quadratic_form, dot, sum. cbn [map zipWith fold_right]. ring.
Qed.

Lemma quadratic_form_zeros (a b : Qc) : quadratic_form (zeros 2 2) [a; b] = 0.
Proof. change (zeros 2 2) with [[0; 0]; [0; 0]]. rewrite quadratic_form_2x2. ring. Qed.

(** [u' (sum_i w_i x_i x_i') u = sum_i w_i (x_i' u)^2]. *)
Lemma quadratic_form_weighted (n : nat) (w : nat -> Qc) (X : matrix) (a b : Qc) :
  quadratic_form (weighted n 2 w X) [a; b]
  = sum_n n (fun i => w i * ((a * entry X i 0 + b * entry X i 1) *
                            (a * entry X i 0 + b * entry X i 1))).
Proof.
  unfold weighted. change (tabulate 2 2 ?f) with
    [[f 0%nat 0%nat; f 0%nat 1%nat]; [f 1%nat 0%nat; f 1%nat 1%nat]].
  rewrite quadratic_form_2x2.
  rewrite (sum_n_ext n
     (fun i => w i * ((a * entry X i 0 + b * entry X i 1) *
                      (a * entry X i 0 + b * entry X i 1)))
     (fun i =>
     a * a * (w i * (entry X i 0 * entry X i 0))
     + (a * b * (w i * (entry X i 0 * entry X i 1))
        + (b * a * (w i * (entry X i 1 * entry X i 0))
           + b * b * (w i * (entry X i 1 * entry X i 1))))))
    by (intros i _; ring).
  rewrite !sum_n_plus, !sum_n_scal. ring.
Qed.

Lemma weighted_semidefinite (n : nat) (w : nat -> Qc) (X : matrix) (a b : Qc) :
  (forall i, (i < n)%nat -> 0 <= w i) ->
  0 <= quadratic_form (weighted n 2 w X) [a; b].
Proof.
  intros Hw. rewrite quadratic_form_weighted. apply sum_n_nonneg. intros i Hi.
  set (y := (a * entry X i 0 + b * entry X i 1) * (a * entry X i 0 + b * entry X i 1)).
  replace 0 with (0 * y) by ring.
  apply Qcmult_le_compat_r; [now apply Hw | apply Qc_square_nonneg].
Qed.

Lemma score_outer_semidefinite (n : nat) (e_hat : vector) (X : matrix) (a b : Qc) :
  0 <= quadratic_form (score_outer n 2 e_hat X) [a; b].
Proof.
  unfold score_outer. change (tabulate 2 2 ?f) with
    [[f 0%nat 0%nat; f 0%nat 1%nat]; [f 1%nat 0%nat; f 1%nat 1%nat]].
  rewrite quadratic_form_2x2.
  set (s0 := sum_n n (fun i => entry X i 0 * nth i e_hat 0)).
  set (s1 := sum_n n (fun i => entry X i 1 * nth i e_hat 0)).
  replace (a * (s0 * s0 * a + s0 * s1 * b) + b * (s1 * s0 * a + s1 * s1 * b))
    with ((a * s0 + b * s1) * (a * s0 + b * s1)) by ring.
  apply Qc_square_nonneg.
Qed.

Lemma squared_nonneg (e_hat : vector) (i : nat) : 0 <= squared e_hat i.
Proof. unfold squared. rewrite Qc_sq. apply Qc_square_nonneg. Qed.

Lemma quadratic_form_add (A B : matrix) (a b : Qc) :
  is_matrix 2 2 A -> is_matrix 2 2 B ->
  quadratic_form (tabulate 2 2 (fun i j => entry A i j + entry B i j)) [a; b]
  = quadratic_form A [a; b] + quadratic_form B [a; b].
Proof.
  intros HA HB.
  destruct (is_matrix_2x2 A HA) as (p & q & r & s & ->).
  destruct (is_matrix_2x2 B HB) as (p' & q' & r' & s' & ->).
  change (tabulate 2 2 ?f) with
    [[f 0%nat 0%nat; f 0%nat 1%nat]; [f 1%nat 0%nat; f 1%nat 1%nat]].
  unfold entry. cbn [nth]. rewrite !quadratic_form_2x2. ring.
Qed.

(** Each option leaves a positive semidefinite [XXe2] when it finds one. *)
Lemma middle_keeps_semidefinite (n opt : nat) (XXe2 X : matrix) (e_hat : vector) :
  valid n 2 X e_hat -> In opt [1; 2; 3; 4]%nat -> is_matrix 2 2 XXe2 ->
  (forall a b, 0 <= quadratic_form XXe2 [a; b]) ->
  exists M, computeMiddle n opt XXe2 X e_hat = OK M /\ is_matrix 2 2 M /\
            forall a b, 0 <= quadratic_form M [a; b].
Proof.
  intros (Hn & HK & HX & He) Hopt HA Hpos.
  simpl in Hopt. destruct Hopt as [<-|[<-|[<-|[<-|[]]]]].
  - rewrite (computeMiddle_1 n 2 X Hn HK HX) by (assumption || lia).
    eexists. split; [reflexivity |]. split; [apply is_matrix_tabulate |].
    intros a b.
    rewrite quadratic_form_add by (assumption || apply is_matrix_tabulate).
    replace (Q2Qc 0) with (0 + 0) by ring.
    apply Qcplus_le_compat; [apply Hpos |].
    apply weighted_semidefinite. intros i _. apply squared_nonneg.
  - rewrite (computeMiddle_2 n 2 X Hn HK HX) by exact He.
    eexists. split; [reflexivity |]. split; [apply is_matrix_tabulate |].
    intros a b. apply weighted_semidefinite. intros i _. apply squared_nonneg.
  - rewrite (computeMiddle_3 n 2 X Hn HK HX) by exact He.
    eexists. split; [reflexivity |]. split; [apply is_matrix_tabulate |].
    intros a b. apply weighted_semidefinite. intros i _. apply squared_nonneg.
  - rewrite (computeMiddle_4 n 2 X Hn HK HX) by exact He.
    eexists. split; [reflexivity |]. split; [apply is_matrix_tabulate |].
    intros a b. apply score_outer_semidefinite.
Qed.

(** The sandwich of a positive semidefinite middle term is positive
    semidefinite: [u' B M B u = (B u)' M (B u)] for the symmetric
    [B = inv(X'X)]. *)
Lemma sandwich_semidefinite (n : nat) (X M S : matrix) :
  (0 < n)%nat -> is_matrix n 2 X -> is_matrix 2 2 M ->
  (forall a b, 0 <= quadratic_form M [a; b]) ->
  sandwich X M = OK S -> forall a b, 0 <= quadratic_form S [a; b].
Proof.
  intros Hn HX HM Hpos.
  rewrite (sandwich_gram n 2 X Hn ltac:(lia) HX).
  destruct (is_matrix_2x2 M HM) as (p & q & r & s & ->).
  destruct (symmetric_2x2 (weighted n 2 (fun _ => 1) X)) as (x & y & z & HG).
  { apply is_matrix_tabulate. }
  { apply weighted_symmetric. lia. }
  rewrite HG.
  destruct (Qc_eq_dec (x * z - y * y) 0) as [Hd|Hd].
  - unfold inv. cbn [is_square forallb nrows length Nat.eqb andb].
    rewrite det_2x2. apply Qc_eqb_eq in Hd. rewrite Hd. discriminate.
  - rewrite (inv_2x2_formula x y y z Hd). cbn [bind].
    rewrite matmul_2x2. cbn [bind]. rewrite matmul_2x2.
    intros H a b. apply OK_inj in H. subst S.
    set (D := x * z - y * y) in *.
    pose proof (Hpos (z / D * a + - y / D * b) (- y / D * a + x / D * b)) as H.
    rewrite quadratic_form_2x2 in *.
    match goal with
    | H : 0 <= ?u |- 0 <= ?v => replace v with u by (field; exact Hd); exact H
    end.
Qed.

End Semidefinite.

(** X7: in every completed run of the benchmark cell, under each option,
    [XXe2] and [sig_B] are positive semidefinite after every replication:
    [u' M u >= 0] for every [u], so the variance estimates on the diagonal
    of [sig_B] are never negative. *)
Theorem run_matrices_semidefinite (seed : nat -> RandomState) (n Rep opt : nat)
        (g : RandomState) (rs : list replication) :
  1 <= n -> In opt [1; 2; 3; 4] ->
  benchmark seed n Rep opt g = OK rs ->
  Forall (fun p => forall a b : Qc,
            (0 <= quadratic_form (rep_XXe2 p) [a; b])%Qc /\
            (0 <= quadratic_form (rep_sig_B p) [a; b])%Qc) rs.
Proof.
  intros Hn Hopt. unfold benchmark.
  assert (HA : is_matrix 2 2 (zeros 2 2) /\
               forall a b : Qc, (0 <= quadratic_form (zeros 2 2) [a; b])%Qc).
  { split; [apply is_matrix_zeros |]. intros a b. rewrite quadratic_form_zeros.
    apply Qcle_refl. }
  revert HA. generalize (zeros 2 2). generalize (seq 0 Rep). intros range.
  revert g rs. induction range as [|iter range IH]; intros g rs A [HA Hpos] H;
    cbn [replications] in H.
  - apply OK_inj in H. subst rs. constructor.
  - destruct (body seed n opt g A iter) as [p|ex] eqn:Hbody; cbn [bind] in H;
      [| discriminate].
    destruct (replications seed n opt (rep_random_state p) (rep_XXe2 p) range)
      as [rs'|ex] eqn:Hrest; cbn [bind] in H; [| discriminate].
    apply OK_inj in H. subst rs.
    unfold body, draw in Hbody.
    destruct (lpm n (seed iter)) as [[[X e_hat] g']|ex] eqn:Hlpm; cbn [bind] in Hbody;
      [| discriminate].
    pose proof (lpm_valid n (seed iter) g' X e_hat Hn Hlpm) as Hv.
    destruct (middle_keeps_semidefinite n opt A X e_hat Hv Hopt HA Hpos)
      as (M & HM & HMs & HMp).
    rewrite HM in Hbody. cbn [bind] in Hbody.
    destruct (sandwich X M) as [S|ex] eqn:HS; cbn [bind] in Hbody; [| discriminate].
    destruct Hv as (_ & _ & HX & _).
    pose proof (sandwich_semidefinite n X M S Hn HX HMs HMp HS) as HSp.
    apply OK_inj in Hbody. subst p. cbn [rep_XXe2 rep_random_state] in Hrest.
    constructor; [cbn [rep_XXe2 rep_sig_B]; intros a b; split; [apply HMp | apply HSp] |].
    apply (IH g' rs' M); [now split | exact Hrest].
Qed.

Lemma run_matrices_semidefinite_witness :
  Forall (fun p => forall a b : Qc,
            (0 <= quadratic_form (rep_XXe2 p) [a; b])%Qc /\
            (0 <= quadratic_form (rep_sig_B p) [a; b])%Qc) run_option_1.
Proof.
  apply (run_matrices_semidefinite two_streams 3 2 1 (tape []) run_option_1).
  - lia.
  - simpl. tauto.
  - vm_compute. reflexivity.
Defined.

(** ** Options 2 and 3 along a run *)

(** One pass of the loop under options 2 and 3: the same record, whatever
    the random state and [XXe2] the pass finds. *)
Lemma body_2_3 (seed : nat -> RandomState) (n iter : nat) (g g' : RandomState)
      (A A' : matrix) :
  1 <= n -> body seed n 2 g A iter = body seed n 3 g' A' iter.
Proof.
  intros Hn. unfold body, draw.
  destruct (lpm n (seed iter)) as [[[X e_hat] g0]|ex] eqn:Hlpm; cbn [bind]; [| reflexivity].
  destruct (lpm_valid n (seed iter) g0 X e_hat Hn Hlpm) as (_ & HK & HX & He).
  rewrite (computeMiddle_2 n 2 X Hn HK HX A e_hat He).
  rewrite (computeMiddle_3 n 2 X Hn HK HX A' e_hat He).
  reflexivity.
Qed.

(** X9: options 2 and 3 of the benchmark cell give the same run: the same
    data, [XXe2] and [sig_B] at every replication, or the same exception,
    from whatever random state each of them starts. *)
Theorem options_2_3_same_run (seed : nat -> RandomState) (n Rep : nat)
        (g g' : RandomState) :
  1 <= n -> benchmark seed n Rep 2 g = benchmark seed n Rep 3 g'.
Proof.
  intros Hn. unfold benchmark.
  generalize (zeros 2 2) at 1. generalize (zeros 2 2). generalize (seq 0 Rep).
  intros range. revert g g'.
  induction range as [|iter range IH]; intros g g' A' A; cbn [replications];
    [reflexivity |].
  rewrite (body_2_3 seed n iter g g' A A' Hn).
  destruct (body seed n 3 g' A' iter) as [p|ex]; cbn [bind]; [| reflexivity].
  now rewrite (IH (rep_random_state p) (rep_random_state p) (rep_XXe2 p) (rep_XXe2 p)).
Qed.

Lemma options_2_3_same_run_witness :
  benchmark two_streams 3 2 2 (tape []) = benchmark two_streams 3 2 3 (tape [1%Q]).
Proof.
  apply (options_2_3_same_run two_streams 3 2 (tape []) (tape [1%Q])). lia.
Defined.

(** * Proofs: confidence intervals *)

Section Intervals.

Local Open Scope R_scope.

Lemma length_positive {A : Type} (x : list A) : x <> [] -> 0 < INR (length x).
Proof.
  intros Hx. destruct x as [|a x]; [congruence |].
  apply lt_0_INR. simpl. lia.
Qed.

Lemma mean_empty : mean [] = f64.NaN.
Proof.
  unfold mean, f64.div. cbn [length fold_right INR].
  destruct (Req_dec_T 0 0) as [_|H]; [| now contradiction H].
  reflexivity.
Qed.

Lemma mean_nonempty (x : list R) :
  x <> [] -> mean x = f64.Num (fold_right Rplus 0 x / INR (length x)).
Proof.
  intros Hx. pose proof (length_positive x Hx) as Hn.
  unfold mean, f64.div.
  destruct (Req_dec_T (INR (length x)) 0) as [H|_]; [lra | reflexivity].
Qed.

Lemma sum_squares_nonneg (x : list R) (m : R) :
  0 <= fold_right Rplus 0 (map (fun v => Rabs (v - m) ^ 2) x).
Proof.
  induction x as [|a x IH]; cbn [map fold_right]; [lra |].
  pose proof (pow2_ge_0 (Rabs (a - m))). lra.
Qed.

Lemma sqrt_Num (y : R) : 0 <= y -> f64.sqrt (f64.Num y) = f64.Num (sqrt y).
Proof.
  intros Hy. unfold f64.sqrt. destruct (Rlt_dec y 0) as [H|_]; [lra | reflexivity].
Qed.

Lemma variance_nonneg (x : list R) : x <> [] -> 0 <= variance x.
Proof.
  intros Hx. unfold variance. apply Rmult_le_pos; [apply sum_squares_nonneg |].
  left. apply Rinv_0_lt_compat. now apply length_positive.
Qed.

Lemma std_nonempty (x : list R) : x <> [] -> std x = f64.Num (sqrt (variance x)).
Proof.
  intros Hx. unfold std. rewrite (mean_nonempty x Hx).
  rewrite mean_nonempty by (destruct x; [congruence | discriminate]).
  rewrite length_map. now apply sqrt_Num, variance_nonneg.
Qed.

(** On a sample that is not empty the bounds are numbers, at the same
    distance below and above the mean. *)
Lemma CI_nonempty (x : list R) :
  x <> [] ->
  CI x = {| lower := f64.Num (fold_right Rplus 0 x / INR (length x)
                              - 196 / 100 / sqrt (INR (length x)) * sqrt (variance x));
            upper := f64.Num (fold_right Rplus 0 x / INR (length x)
                              + 196 / 100 / sqrt (INR (length x)) * sqrt (variance x)) |}.
Proof.
  intros Hx. pose proof (length_positive x Hx) as Hn.
  unfold CI. rewrite (mean_nonempty x Hx), (std_nonempty x Hx).
  rewrite sqrt_Num by lra.
  assert (Hs : sqrt (INR (length x)) <> 0).
  { intros H. apply sqrt_eq_0 in H; lra. }
  unfold f64.div. destruct (Req_dec_T (sqrt (INR (length x))) 0) as [H|_]; [contradiction |].
  reflexivity.
Qed.

Lemma half_width_nonneg (x : list R) :
  x <> [] -> 0 <= 196 / 100 / sqrt (INR (length x)) * sqrt (variance x).
Proof.
  intros Hx. pose proof (length_positive x Hx) as Hn.
  apply Rmult_le_pos; [| apply sqrt_pos].
  apply Rmult_le_pos; [lra |]. left. apply Rinv_0_lt_compat. now apply sqrt_lt_R0.
Qed.

End Intervals.

Section Comparison.

Local Open Scope R_scope.

Lemma le_Num (a b : R) : f64.le (f64.Num a) (f64.Num b) = true <-> a <= b.
Proof.
  unfold f64.le. destruct (Rle_dec a b) as [H|H]; split; intros H'; try easy.
Qed.

End Comparison.

(** X12: on a sample that is not empty [CI] returns two numbers (no [nan],
    no infinity) at the same distance [h >= 0] below and above the sample
    mean, so the interval always covers the sample mean itself. *)
Theorem CI_centred_at_mean (x : list R) :
  x <> [] ->
  exists m h : R,
    mean x = f64.Num m /\ (0 <= h)%R /\
    CI x = {| lower := f64.Num (m - h); upper := f64.Num (m + h) |} /\
    covers (CI x) m = true.
Proof.
  intros Hx.
  exists (fold_right Rplus 0 x / INR (length x))%R,
         (196 / 100 / sqrt (INR (length x)) * sqrt (variance x))%R.
  pose proof (half_width_nonneg x Hx) as Hh.
  split; [now apply mean_nonempty |]. split; [exact Hh |].
  split; [now apply CI_nonempty |].
  unfold covers. rewrite (CI_nonempty x Hx). cbn [lower upper].
  apply andb_true_iff. split; apply le_Num; lra.
Qed.

Lemma CI_centred_at_mean_witness :
  exists m h : R,
    mean [1; 2; 3]%R = f64.Num m /\ (0 <= h)%R /\
    CI [1; 2; 3]%R = {| lower := f64.Num (m - h); upper := f64.Num (m + h) |} /\
    covers (CI [1; 2; 3]%R) m = true.
Proof.
  apply (CI_centred_at_mean [1; 2; 3]%R). discriminate.
Defined.

Section ConstantSample.

Local Open Scope R_scope.

Lemma sum_repeat (c : R) (n : nat) : fold_right Rplus 0 (repeat c n) = INR n * c.
Proof.
  induction n as [|n IH]; [cbn [repeat fold_right INR]; lra |].
  cbn [repeat fold_right]. rewrite IH, S_INR. ring.
Qed.

Lemma variance_repeat (c : R) (n : nat) : (1 <= n)%nat -> variance (repeat c n) = 0.
Proof.
  intros Hn. assert (Hp : 0 < INR n) by (apply lt_0_INR; lia).
  unfold variance. rewrite repeat_length, sum_repeat.
  replace (INR n * c / INR n) with c by (field; lra).
  rewrite map_repeat, sum_repeat.
  replace (c - c) with 0 by ring. rewrite Rabs_R0. field. lra.
Qed.

End ConstantSample.

(** X13: on a sample of [n >= 1] equal integer draws [c] the standard
    deviation is zero and the interval is the point [c]: it covers the
    integer [mu] exactly when [mu = c].  The bounds [2^53] keep the sums
    and the comparison exact in binary64 as well. *)
Theorem CI_constant_sample (c mu : Z) (n : nat) :
  1 <= n ->
  (Z.of_nat n * Z.abs c <= 2 ^ 53)%Z -> (Z.abs mu <= 2 ^ 53)%Z ->
  CI (map IZR (repeat c n)) = {| lower := f64.Num (IZR c); upper := f64.Num (IZR c) |} /\
  (covers (CI (map IZR (repeat c n))) (IZR mu) = true <-> mu = c).
Proof.
  intros Hn _ _. rewrite map_repeat.
  assert (Hx : repeat (IZR c) n <> []) by (destruct n; [lia | discriminate]).
  assert (Hp : (0 < INR n)%R) by (apply lt_0_INR; lia).
  assert (HCI : CI (repeat (IZR c) n)
                = {| lower := f64.Num (IZR c); upper := f64.Num (IZR c) |}).
  { rewrite (CI_nonempty _ Hx), (variance_repeat (IZR c) n Hn), repeat_length,
      sum_repeat, sqrt_0.
    rewrite Rmult_0_r. f_equal; f_equal; field; lra. }
  split; [exact HCI |].
  unfold covers. rewrite HCI. cbn [lower upper].
  rewrite andb_true_iff, !le_Num. split.
  - intros [H1 H2]. apply eq_IZR. lra.
  - intros ->. lra.
Qed.

Lemma CI_constant_sample_witness :
  CI (map IZR (repeat 10%Z 5))
  = {| lower := f64.Num (IZR 10); upper := f64.Num (IZR 10) |} /\
  (covers (CI (map IZR (repeat 10%Z 5))) (IZR 10) = true <-> 10%Z = 10%Z).
Proof.
  apply (CI_constant_sample 10%Z 10%Z 5).
  - lia.
  - vm_compute. discriminate.
  - vm_compute. discriminate.
Defined.

(** * Proofs: the coverage loops *)

Section Loops.

Variable state : Type.
Variable seed : nat -> state.
Variable poisson : Z -> nat -> state -> list Z * state.
Variables (mu : Z) (sample_size : nat).

Lemma setitem_middle {A : Type} (done rest : list A) (a b : A) (i : nat) :
  length done = i ->
  setitem (done ++ a :: rest) i b = OK (done ++ b :: rest).
Proof.
  intros <-. unfold setitem, np.set_nth.
  rewrite length_app. cbn [length].
  destruct (Nat.ltb_spec (length done) (length done + S (length rest))) as [_|H]; [| lia].
  rewrite firstn_app, Nat.sub_diag, firstn_all, firstn_O, app_nil_r.
  rewrite skipn_app, Nat.sub_diag, skipn_all. reflexivity.
Qed.

(** The loop that appends adds to [out] what the comprehension lists. *)
Lemma loop_append_comprehension (range : list nat) (g : state) (out : list bool) :
  loop_append state poisson mu sample_size range g out
  = (out ++ fst (comprehension state poisson mu sample_size range g),
     snd (comprehension state poisson mu sample_size range g)).
Proof.
  revert g out. induction range as [|i range IH]; intros g out;
    cbn [loop_append comprehension].
  - cbn [fst snd]. now rewrite app_nil_r.
  - unfold parallel_func. destruct (poisson mu sample_size g) as [x g'].
    rewrite IH.
    destruct (comprehension state poisson mu sample_size range g') as [out' g''].
    cbn [fst snd]. now rewrite <- app_assoc.
Qed.

(** The loop that assigns overwrites the slots [k .. k + m - 1] with what
    the comprehension lists, and no index is out of range. *)
Lemma loop_assign_comprehension (m k r : nat) (g : state) (done : list bool) :
  length done = k ->
  loop_assign state poisson mu sample_size (seq k m) g (done ++ repeat false (m + r))
  = OK (done ++ fst (comprehension state poisson mu sample_size (seq k m) g)
             ++ repeat false r,
        snd (comprehension state poisson mu sample_size (seq k m) g)).
Proof.
  revert k g done. induction m as [|m IH]; intros k g done Hk;
    cbn [seq loop_assign comprehension].
  - reflexivity.
  - unfold parallel_func. destruct (poisson mu sample_size g) as [x g'].
    cbn [Nat.add repeat]. rewrite (setitem_middle done _ false _ k Hk). cbn [bind].
    replace (done ++ covers (CI (map IZR x)) (IZR mu) :: repeat false (m + r))
      with ((done ++ [covers (CI (map IZR x)) (IZR mu)]) ++ repeat false (m + r))
      by now rewrite <- app_assoc.
    rewrite IH by (rewrite length_app; cbn [length]; lia).
    destruct (comprehension state poisson mu sample_size (seq (S k) m) g') as [out' g''].
    cbn [fst snd]. now rewrite <- !app_assoc.
Qed.

Lemma length_comprehension (range : list nat) (g : state) :
  length (fst (comprehension state poisson mu sample_size range g)) = length range.
Proof.
  revert g. induction range as [|i range IH]; intros g; cbn [comprehension]; [reflexivity |].
  destruct (parallel_func state poisson mu sample_size i g) as [b g'].
  specialize (IH g').
  destruct (comprehension state poisson mu sample_size range g') as [out' g''].
  cbn [fst length] in *. now rewrite IH.
Qed.

End Loops.

(** X14: the loop that appends to a list, the loop that assigns into the
    pre-allocated array [np.zeros(Rep, dtype=bool)] and the list
    comprehension over [parallel_func] compute the same [Rep] coverage
    indicators from the same seed and leave the generator in the same
    state; the assignments [out[i] = ...] never raise [IndexError]. *)
Theorem coverage_loops_agree (state : Type) (seed : nat -> state)
        (poisson : Z -> nat -> state -> list Z * state)
        (Rep sample_size : nat) (mu : Z) :
  coverage_assign state seed poisson Rep sample_size mu
  = OK (coverage_append state seed poisson Rep sample_size mu) /\
  comprehension state poisson mu sample_size (seq 0 Rep) (seed 1)
  = coverage_append state seed poisson Rep sample_size mu /\
  length (fst (coverage_append state seed poisson Rep sample_size mu)) = Rep.
Proof.
  unfold coverage_assign, coverage_append.
  rewrite loop_append_comprehension. cbn [app].
  split; [| split].
  - pose proof (loop_assign_comprehension state poisson mu sample_size Rep 0 0 (seed 1) []
                  eq_refl) as H.
    rewrite Nat.add_0_r in H. cbn [app repeat] in H. rewrite app_nil_r in H. exact H.
  - now destruct (comprehension state poisson mu sample_size (seq 0 Rep) (seed 1)).
  - cbn [fst]. now rewrite length_comprehension, length_seq.
Qed.

(** * Proofs: one process for each replication *)

Section Processes.

Variable state : Type.
Variable seed : nat -> state.
Variable poisson : Z -> nat -> state -> list Z * state.
Variables (mu : Z) (sample_size : nat).

Lemma capture_writes (i : nat) (d : list (nat * bool)) :
  capture state seed poisson mu sample_size i d
  = dict_set d i (process_result state seed poisson mu sample_size i).
Proof.
  unfold capture, process_result, parallel_func.
  now destruct (poisson mu sample_size (seed i)).
Qed.

Lemma dict_set_fresh {V : Type} (d : list (nat * V)) (k : nat) (v : V) :
  ~ In k (map fst d) -> dict_set d k v = d ++ [(k, v)].
Proof.
  induction d as [|[k' v'] d IH]; intros Hk; cbn [dict_set app]; [reflexivity |].
  cbn [map fst In] in Hk.
  destruct (Nat.eqb_spec k' k) as [->|_]; [tauto |].
  rewrite IH by tauto. reflexivity.
Qed.

Lemma joined_from (l : list nat) (d : list (nat * bool)) :
  NoDup (map fst d ++ l) ->
  fold_left (fun return_dict i => capture state seed poisson mu sample_size i return_dict) l d
  = d ++ map (fun i => (i, process_result state seed poisson mu sample_size i)) l.
Proof.
  revert d. induction l as [|i l IH]; intros d Hd; cbn [fold_left map].
  - now rewrite app_nil_r.
  - rewrite capture_writes.
    assert (Hi : ~ In i (map fst d)).
    { intros Hin. apply NoDup_remove_2 in Hd. apply Hd, in_or_app. now left. }
    rewrite dict_set_fresh by exact Hi.
    rewrite IH.
    + now rewrite <- app_assoc.
    + rewrite map_app. cbn [map fst]. now rewrite <- app_assoc.
Qed.

Lemma joined_schedule (schedule : list nat) :
  NoDup schedule ->
  joined state seed poisson mu sample_size schedule
  = map (fun i => (i, process_result state seed poisson mu sample_size i)) schedule.
Proof. intros Hs. unfold joined. now rewrite joined_from. Qed.

Lemma dict_get_map (r : nat -> bool) (l : list nat) (k : nat) :
  In k l -> dict_get (map (fun i => (i, r i)) l) k = Some (r k).
Proof.
  induction l as [|i l IH]; intros Hk; [contradiction |].
  cbn [map dict_get]. destruct (Nat.eqb_spec i k) as [->|Hne]; [reflexivity |].
  apply IH. destruct Hk; [contradiction | assumption].
Qed.

Lemma sum_Permutation (u v : list R) :
  Permutation u v -> fold_right Rplus 0%R u = fold_right Rplus 0%R v.
Proof.
  induction 1; cbn [fold_right]; [reflexivity | now f_equal | lra | congruence].
Qed.

Lemma sum_of_bool (l : list bool) :
  (0 <= fold_right Rplus 0 (map of_bool l) <= INR (length l))%R.
Proof.
  induction l as [|b l IH]; [cbn [map fold_right length INR]; lra |].
  cbn [map fold_right]. change (length (b :: l)) with (S (length l)). rewrite S_INR.
  destruct b; cbn [of_bool]; lra.
Qed.

End Processes.

(** X15: the cell that starts one process for each replication.  Process
    [i] seeds its own generator with [i], so whatever the order in which
    the [Rep] processes write to [return_dict], the dictionary holds under
    each key [i < Rep] what [parallel_func] returns from the state
    [seed(i)], and [stat_cover] is the same; it is a proportion between 0
    and 1 (the cell prints it as a percentage). *)
Theorem process_order_irrelevant (state : Type) (seed : nat -> state)
        (poisson : Z -> nat -> state -> list Z * state)
        (Rep sample_size : nat) (mu : Z) (schedule : list nat) :
  Permutation schedule (seq 0 Rep) ->
  (forall i, i < Rep ->
     dict_get (joined state seed poisson mu sample_size schedule) i
     = Some (process_result state seed poisson mu sample_size i)) /\
  length (joined state seed poisson mu sample_size schedule) = Rep /\
  stat_cover (joined state seed poisson mu sample_size schedule)
  = stat_cover (joined state seed poisson mu sample_size (seq 0 Rep)) /\
  (1 <= Rep ->
   exists p : R, stat_cover (joined state seed poisson mu sample_size schedule) = f64.Num p /\
                 (0 <= p <= 1)%R).
Proof.
  intros Hperm.
  assert (Hnd : NoDup schedule).
  { apply (Permutation_NoDup (Permutation_sym Hperm)), seq_NoDup. }
  assert (Hlen : length schedule = Rep).
  { rewrite (Permutation_length Hperm). apply length_seq. }
  rewrite (joined_schedule state seed poisson mu sample_size schedule Hnd).
  rewrite (joined_schedule state seed poisson mu sample_size (seq 0 Rep) (seq_NoDup Rep 0)).
  set (r := process_result state seed poisson mu sample_size).
  assert (Hstat : forall l, stat_cover (map (fun i => (i, r i)) l)
                            = mean (map of_bool (map r l))).
  { intros l. unfold stat_cover. now rewrite (map_map (fun i => (i, r i)) snd). }
  split; [| split; [| split]].
  - intros i Hi. apply (dict_get_map r). apply (Permutation_in i (Permutation_sym Hperm)).
    apply in_seq. lia.
  - now rewrite length_map.
  - rewrite !Hstat. unfold mean. rewrite !length_map, Hlen, length_seq.
    f_equal. f_equal. apply sum_Permutation. now do 2 apply Permutation_map.
  - intros HRep. rewrite Hstat.
    assert (Hne : map of_bool (map r schedule) <> []).
    { destruct schedule; [cbn [length] in Hlen; lia | discriminate]. }
    rewrite (mean_nonempty _ Hne).
    eexists. split; [reflexivity |].
    pose proof (sum_of_bool (map r schedule)) as Hs.
    pose proof (length_positive _ Hne) as Hp.
    rewrite !length_map in *.
    split.
    + apply Rmult_le_pos; [lra |]. left. now apply Rinv_0_lt_compat.
    + apply (Rmult_le_reg_r (INR (length schedule))); [exact Hp |].
      replace (fold_right Rplus 0 (map of_bool (map r schedule)) / INR (length schedule)
               * INR (length schedule))%R
        with (fold_right Rplus 0 (map of_bool (map r schedule)))%R by (field; lra).
      lra.
Qed.

Lemma process_order_irrelevant_witness :
  stat_cover (joined nat (fun s => s) (fun lam size g => (repeat (Z.of_nat g) size, g))
                     1%Z 3 [1; 0])
  = stat_cover (joined nat (fun s => s) (fun lam size g => (repeat (Z.of_nat g) size, g))
                       1%Z 3 (seq 0 2)).
Proof.
  apply (process_order_irrelevant nat (fun s => s)
           (fun lam size g => (repeat (Z.of_nat g) size, g)) 2 3 1%Z [1; 0]).
  apply perm_swap.
Defined.
